(** * MDConverter: the HTML-to-Markdown pipeline of
      [standalone/html_to_markdown_converter.py], embedded and verified.

    The development follows the converter class method by method.  Python
    [str] values are [string]s over 8-bit code points (ASCII and the Latin-1
    supplement), which is the range on which the character classes used by
    the converter ([\s], [\d], [str.strip]) are given below.  Library code
    the converter calls (regular expressions, [str] methods, the document
    tree, [pathlib], the file system) is modelled as far as the converter
    uses it. *)

From Stdlib Require Import Ascii String NArith.
From Stdlib Require Strings.Byte.
From stdpp Require Import base option list strings gmap.

Local Open Scope string_scope.
Local Open Scope list_scope.

(** ** Characters and [str] methods *)

Module PyStr.

Definition chr (n : N) : ascii := ascii_of_N n.
Definition LF : ascii := chr 10.
Definition TAB : ascii := chr 9.
Definition SP : ascii := " "%char.

(** A one-character string, and the newline string ["\n"]. *)
Definition str1 (c : ascii) : string := String c "".
Definition NL : string := str1 LF.

(** [str.isspace] on one character, which is also the class [\s] of [re]
    for [str] patterns: TAB..CR, FS..US, space, NEL and NBSP. *)
Definition is_space (c : ascii) : bool :=
  let n := N_of_ascii c in
  ((9 <=? n) && (n <=? 13) || (28 <=? n) && (n <=? 32)
   || (n =? 133) || (n =? 160))%N.

(** The class [\d]: the decimal digits. *)
Definition is_digit (c : ascii) : bool :=
  let n := N_of_ascii c in ((48 <=? n) && (n <=? 57))%N.

Definition is_char (a : ascii) (c : ascii) : bool := bool_decide (c = a).

(** Truth value of a [str]: non-empty. *)
Definition nonempty (s : string) : bool :=
  match s with EmptyString => false | String _ _ => true end.

Fixpoint mem (c : ascii) (chars : string) : bool :=
  match chars with
  | EmptyString => false
  | String d r => bool_decide (c = d) || mem c r
  end.

(** [s.startswith(p)] *)
Fixpoint startswith (p s : string) : bool :=
  match p, s with
  | EmptyString, _ => true
  | String a p', String b s' => bool_decide (a = b) && startswith p' s'
  | String _ _, EmptyString => false
  end.

Fixpoint drop (n : nat) (s : string) : string :=
  match n, s with
  | O, _ => s
  | S n', String _ s' => drop n' s'
  | S _, EmptyString => EmptyString
  end.

Fixpoint take (n : nat) (s : string) : string :=
  match n, s with
  | O, _ => EmptyString
  | S n', String c s' => String c (take n' s')
  | S _, EmptyString => EmptyString
  end.

(** [s.lstrip(chars)]: every leading character that belongs to the set
    [chars] is removed. *)
Fixpoint lstrip_chars (chars s : string) : string :=
  match s with
  | String c s' => if mem c chars then lstrip_chars chars s' else s
  | EmptyString => EmptyString
  end.

(** [s.lstrip()], [s.rstrip()], [s.strip()] on white space. *)
Fixpoint lstrip (s : string) : string :=
  match s with
  | String c s' => if is_space c then lstrip s' else s
  | EmptyString => EmptyString
  end.

Fixpoint rstrip (s : string) : string :=
  match s with
  | String c s' =>
      match rstrip s' with
      | EmptyString => if is_space c then EmptyString else str1 c
      | t => String c t
      end
  | EmptyString => EmptyString
  end.

Definition strip (s : string) : string := rstrip (lstrip s).

(** [s.replace(old, new)] for a non-empty [old]: occurrences are found
    from the left and do not overlap.  [skip] counts the characters of
    the occurrence being replaced that are still to be passed over. *)
Fixpoint replace_go (old new : string) (skip : nat) (s : string) : string :=
  match s with
  | EmptyString => EmptyString
  | String c s' =>
      match skip with
      | S k => replace_go old new k s'
      | O =>
          if startswith old s
          then new +:+ replace_go old new (String.length old - 1) s'
          else String c (replace_go old new 0 s')
      end
  end.

Definition replace (old new s : string) : string := replace_go old new 0 s.

(** [os.path.basename(p)] (posix): what follows the last ['/']. *)
Fixpoint basename (p : string) : string :=
  match p with
  | EmptyString => EmptyString
  | String c p' =>
      if mem "/"%char p' then basename p'
      else if bool_decide (c = "/"%char) then p' else p
  end.

(** [s.split('/')] *)
Fixpoint split_slash (s : string) : list string :=
  match s with
  | EmptyString => [EmptyString]
  | String c s' =>
      if bool_decide (c = "/"%char) then EmptyString :: split_slash s'
      else match split_slash s' with
           | w :: ws => String c w :: ws
           | [] => [str1 c]
           end
  end.

(** [sub in s] *)
Fixpoint contains (sub s : string) : bool :=
  startswith sub s ||
  match s with
  | EmptyString => false
  | String _ s' => contains sub s'
  end.

(** [s.split()]: the maximal runs of characters that are not white
    space. *)
Fixpoint split_ws_go (cur : option string) (s : string) : list string :=
  match s with
  | EmptyString => match cur with Some w => [w] | None => [] end
  | String c s' =>
      if is_space c
      then match cur with
           | Some w => w :: split_ws_go None s'
           | None => split_ws_go None s'
           end
      else split_ws_go (Some (default "" cur +:+ str1 c)) s'
  end.

Definition split_ws : string -> list string := split_ws_go None.

End PyStr.

(** ** Regular expressions: the fragment of [re] the converter uses

    A backtracking matcher in continuation-passing style, with greedy
    bounded repetition of a character class and numbered groups, and
    [re.sub] on top of it. *)

Module Re.
Import PyStr.

Inductive re : Type :=
| Chr (p : ascii -> bool)                             (* one character of a class *)
| Rep (p : ascii -> bool) (lo : nat) (hi : option nat) (* greedy p{lo,hi} *)
| Cat (r1 r2 : re)
| Alt (r1 r2 : re)
| Grp (i : nat) (r : re).

Definition caps : Type := list (nat * string).
Definition outcome : Type := option (string * caps).

Definition more (hi : option nat) : bool :=
  match hi with None => true | Some O => false | Some (S _) => true end.
Definition dec (hi : option nat) : option nat := Nat.pred <$> hi.

(** Greedy repetition: one more character is taken while the class and
    the upper bound allow it; the continuation is tried on the way back,
    once the lower bound has been reached. *)
Fixpoint rep (p : ascii -> bool) (lo : nat) (hi : option nat) (s : string)
    (k : string -> outcome) : outcome :=
  let stop := match lo with O => k s | S _ => None end in
  match s with
  | String c s' =>
      if p c && more hi then
        match rep p (Nat.pred lo) (dec hi) s' k with
        | Some x => Some x
        | None => stop
        end
      else stop
  | EmptyString => stop
  end.

Fixpoint rmatch (r : re) (s : string) (g : caps)
    (k : string -> caps -> outcome) : outcome :=
  match r with
  | Chr p =>
      match s with
      | String c s' => if p c then k s' g else None
      | EmptyString => None
      end
  | Rep p lo hi => rep p lo hi s (fun s' => k s' g)
  | Cat r1 r2 => rmatch r1 s g (fun s' g' => rmatch r2 s' g' k)
  | Alt r1 r2 =>
      match rmatch r1 s g k with
      | Some x => Some x
      | None => rmatch r2 s g k
      end
  | Grp i r1 =>
      rmatch r1 s g (fun s' g' =>
        k s' ((i, take (String.length s - String.length s') s) :: g'))
  end.

(** The match that starts at the head of [s], if any: the number of
    characters it spans and its groups. *)
Definition match_at (r : re) (s : string) : option (nat * caps) :=
  match rmatch r s [] (fun s' g => Some (s', g)) with
  | Some (s', g) => Some (String.length s - String.length s', g)
  | None => None
  end.

(** Replacement templates: literal text and group references [\i]. *)
Inductive titem : Type := Lit (s : string) | Ref (i : nat).

Fixpoint group (i : nat) (g : caps) : string :=
  match g with
  | [] => ""
  | (j, v) :: g' => if Nat.eqb i j then v else group i g'
  end.

Fixpoint expand (t : list titem) (g : caps) : string :=
  match t with
  | [] => ""
  | Lit s :: t' => s +:+ expand t' g
  | Ref i :: t' => group i g +:+ expand t' g
  end.

(** [re.sub(r, t, s)]: the leftmost match is replaced, the scan resumes
    behind it.  [skip] counts the characters of the current match still
    to be passed over; an empty match is replaced and the scan moves one
    character on. *)
Fixpoint sub_go (r : re) (t : list titem) (skip : nat) (s : string) : string :=
  match skip with
  | S k =>
      match s with
      | String _ s' => sub_go r t k s'
      | EmptyString => EmptyString
      end
  | O =>
      match match_at r s with
      | Some (S n, g) =>
          expand t g +:+
          match s with
          | String _ s' => sub_go r t n s'
          | EmptyString => EmptyString
          end
      | Some (O, g) =>
          expand t g +:+
          match s with
          | String c s' => String c (sub_go r t 0 s')
          | EmptyString => EmptyString
          end
      | None =>
          match s with
          | String c s' => String c (sub_go r t 0 s')
          | EmptyString => EmptyString
          end
      end
  end.

Definition sub (r : re) (t : list titem) (s : string) : string :=
  sub_go r t 0 s.

(** Common classes and quantifiers. *)
Definition plus (p : ascii -> bool) : re := Rep p 1 None.
Definition star (p : ascii -> bool) : re := Rep p 0 None.
Definition dot (c : ascii) : bool := negb (is_char LF c).
Definition one_of (chars : string) (c : ascii) : bool := mem c chars.
Definition none_of (chars : string) (c : ascii) : bool := negb (mem c chars).

End Re.

(** ** The converter's text functions *)

Module Text.
Import PyStr Re.

(** [_clean_text], lines 76-92. *)
Definition _clean_text (text : string) : string :=
  if negb (nonempty text) then "" else
  (* re.sub(r'\s+', ' ', text) *)
  let text := sub (plus is_space) [Lit " "] text in
  let text := strip text in
  let text := replace "&nbsp;" " " text in
  let text := replace "&amp;" "&" text in
  let text := replace "&lt;" "<" text in
  let text := replace "&gt;" ">" text in
  let text := replace "&quot;" (str1 (chr 34)) text in
  text.

Definition hash : ascii -> bool := is_char "#"%char.
Definition newline : ascii -> bool := is_char LF.

(** The six patterns of [_fix_markdown_formatting] and their
    replacement templates, in the order of lines 225-238. *)

(* r'\n{3,}' -> '\n\n' *)
Definition re_newlines : re := Rep newline 3 None.
Definition to_newlines : list titem := [Lit (NL +:+ NL)].

(* r'\n(#{1,6}\s)' -> r'\n\n\1' *)
Definition re_heading_before : re :=
  Cat (Chr newline) (Grp 1 (Cat (Rep hash 1 (Some 6)) (Chr is_space))).
Definition to_heading_before : list titem := [Lit (NL +:+ NL); Ref 1].

(* Line 229: group 1 is [#{1,6}] followed by [.] starred, then [\n], then
   group 2, the class [^\n#]; the template is r'\1\n\n\2'. *)
Definition re_heading_after : re :=
  Cat (Grp 1 (Cat (Rep hash 1 (Some 6)) (star dot)))
      (Cat (Chr newline) (Grp 2 (Chr (none_of (String LF "#"))))).
Definition to_heading_after : list titem := [Ref 1; Lit (NL +:+ NL); Ref 2].

(* Line 232: [\n], then group 1, one of a star, [+], [-] or [\d+\.], then
   [\s]; the template is r'\n\n\1 ' (it ends in a space). *)
Definition re_list_item : re :=
  Cat (Chr newline)
      (Cat (Grp 1 (Alt (Chr (is_char "*"%char))
                  (Alt (Chr (is_char "+"%char))
                  (Alt (Chr (is_char "-"%char))
                       (Cat (plus is_digit) (Chr (is_char "."%char)))))))
           (Chr is_space)).
Definition to_list_item : list titem := [Lit (NL +:+ NL); Ref 1; Lit " "].

(* r'\n(>)' -> r'\n\n\1' *)
Definition re_quote : re := Cat (Chr newline) (Grp 1 (Chr (is_char ">"%char))).
Definition to_quote : list titem := [Lit (NL +:+ NL); Ref 1].

(* r'[ \t]+' -> ' ' *)
Definition blank : ascii -> bool := one_of (String SP (str1 TAB)).
Definition re_blanks : re := plus blank.
Definition to_blank : list titem := [Lit " "].

(** [_fix_markdown_formatting], lines 222-243. *)
Definition _fix_markdown_formatting (markdown_content : string) : string :=
  let markdown_content := sub re_newlines to_newlines markdown_content in
  let markdown_content := sub re_heading_before to_heading_before markdown_content in
  let markdown_content := sub re_heading_after to_heading_after markdown_content in
  let markdown_content := sub re_list_item to_list_item markdown_content in
  let markdown_content := sub re_quote to_quote markdown_content in
  let markdown_content := sub re_blanks to_blank markdown_content in
  let markdown_content := strip markdown_content in
  markdown_content.

End Text.

(** ** The document tree, as the converter reads and mutates it *)

Module Dom.
Import PyStr.

(** A [BeautifulSoup] tree: strings, comments and tags; a tag has a name,
    an attribute dictionary and children.  The [BeautifulSoup] object
    itself is the tag named ["[document]"]. *)
#[warnings="-register-all"]
Inductive node : Type :=
| Text (s : string)
| Comment (s : string)
| Elem (name : string) (attrs : gmap string string) (children : list node).

Definition soup_of (children : list node) : node := Elem "[document]" ∅ children.

Definition attrs_of (n : node) : gmap string string :=
  match n with Elem _ a _ => a | _ => ∅ end.

(** [tag.get(key)] *)
Definition get (key : string) (n : node) : option string := attrs_of n !! key.

(** Truth value of what [dict.get] returns: [None] and [''] are false. *)
Definition truthy (o : option string) : bool :=
  match o with Some s => nonempty s | None => false end.

(** [a or b] on such values. *)
Definition py_or (a b : option string) : option string :=
  if truthy a then a else b.

(** All descendants, in document order. *)
Fixpoint descendants (n : node) : list node :=
  match n with
  | Elem _ _ cs => flat_map (fun c => c :: descendants c) cs
  | _ => []
  end.

Definition is_tag (name : string) (n : node) : bool :=
  match n with Elem nm _ _ => bool_decide (nm = name) | _ => false end.

(** [soup.find_all(name)] and [soup.find(name)] *)
Definition find_all (name : string) (n : node) : list node :=
  List.filter (is_tag name) (descendants n).

Definition find (name : string) (n : node) : option node :=
  head (find_all name n).

(** [tag.get_text()]: the strings below the tag, concatenated. *)
Fixpoint get_text (n : node) : string :=
  match n with
  | Text s => s
  | Comment _ => ""
  | Elem _ _ cs => fold_right (fun c acc => get_text c +:+ acc) "" cs
  end.

(** The simple selectors the converter passes to [select] and
    [select_one]: [name], [.cls], [[attr="v"]] and [[attr*="v"]]. *)
Inductive selector : Type :=
| SelTag (name : string)
| SelClass (cls : string)
| SelAttrEq (attr value : string)
| SelAttrSub (attr value : string).

Definition matches (sel : selector) (n : node) : bool :=
  match n with
  | Elem nm a _ =>
      match sel with
      | SelTag t => bool_decide (nm = t)
      | SelClass c =>
          match a !! "class" with
          | Some v => bool_decide (c ∈ split_ws v)
          | None => false
          end
      | SelAttrEq k v => bool_decide (a !! k = Some v)
      | SelAttrSub k v =>
          match a !! k with
          | Some w => contains v w
          | None => false
          end
      end
  | _ => false
  end.

Definition select (sel : selector) (n : node) : list node :=
  List.filter (matches sel) (descendants n).

Definition select_one (sel : selector) (n : node) : option node :=
  head (select sel n).

(** [for element in soup.select(sel): element.decompose()]: every
    descendant the selector matches leaves the tree, with all below it. *)
Fixpoint decompose_all (sel : selector) (n : node) : node :=
  match n with
  | Elem nm a cs =>
      Elem nm a
        ((fix go (l : list node) : list node :=
            match l with
            | [] => []
            | c :: l' =>
                if matches sel c then go l'
                else decompose_all sel c :: go l'
            end) cs)
  | _ => n
  end.

End Dom.

(** ** Exceptions *)

Inductive exn : Type :=
| UnicodeDecodeError
| FileNotFoundError
| IsADirectoryError.

Inductive result (A : Type) : Type :=
| Ok (a : A)
| Raise (e : exn).
Arguments Ok {A} a.
Arguments Raise {A} e.

Definition rbind {A B : Type} (r : result A) (f : A -> result B) : result B :=
  match r with
  | Ok a => f a
  | Raise e => Raise e
  end.

Notation "'try' p <- r 'in' k" := (rbind r (fun p => k))
  (at level 10, p pattern, r at level 100, k at level 200).

(** [for x in l: ...] with a body that updates [x] and a state and can
    raise. *)
Definition for_each {S A : Type} (body : S -> A -> result (A * S))
    : S -> list A -> result (list A * S) :=
  fix go (st : S) (l : list A) : result (list A * S) :=
    match l with
    | [] => Ok ([], st)
    | x :: l' =>
        try (x', st') <- body st x in
        try (l'', st'') <- go st' l' in
        Ok (x' :: l'', st'')
    end.

(** ** Paths and the file system *)

Module Fs.
Import PyStr.

(** A [pathlib] path on a posix system: its root ([""] when relative, else
    ["/"] or ["//"]) and its components. *)
Record Path : Type := mkPath { root : string; parts : list string }.

#[global] Instance Path_eq_dec : EqDecision Path.
Proof. solve_decision. Defined.

#[global] Instance Path_countable : Countable Path.
Proof.
  apply (inj_countable' (fun p => (root p, parts p))
                        (fun x => mkPath x.1 x.2)).
  by intros [].
Defined.

(** The components of a string: split at ['/'], empty components and
    ['.'] dropped. *)
Definition parse_parts (s : string) : list string :=
  List.filter (fun x => nonempty x && negb (bool_decide (x = ".")))
              (split_slash s).

Definition parse_root (s : string) : string :=
  if startswith "//" s && negb (startswith "///" s) then "//"
  else if startswith "/" s then "/" else "".

(** [p / s]: a string with a root replaces [p]. *)
Definition joinpath (p : Path) (s : string) : Path :=
  if startswith "/" s then mkPath (parse_root s) (parse_parts s)
  else mkPath (root p) (parts p ++ parse_parts s).

Definition path_of (s : string) : Path := joinpath (mkPath "" []) s.

Inductive entry : Type :=
| File (data : list Byte.byte)
| Dir.

(** The file system maps the paths that exist to what is there. *)
Abbreviation files := (gmap Path entry).

(** [p.exists()] *)
Definition exists_ (fs : files) (p : Path) : bool :=
  bool_decide (is_Some (fs !! p)).

(** [shutil.copy2(src, dst)] towards a [dst] that does not exist, in a
    directory that does: the data of the regular file [src] arrives at
    [dst]. *)
Definition copy2 (fs : files) (src dst : Path) : result files :=
  match fs !! src with
  | Some (File data) => Ok (<[dst := File data]> fs)
  | Some Dir => Raise IsADirectoryError
  | None => Raise FileNotFoundError
  end.

End Fs.

Infix "/;" := Fs.joinpath (at level 40, left associativity).

(** ** The converter object and the image stage *)

Module Images.
Import PyStr Dom Fs.

(** The fields [__init__] sets (lines 39-58) that the image stage reads. *)
Record converter : Type := {
  base_dir : Path;
  assets_folder : option Path;
  images_dir : Path
}.

(** What the image stage can change: the file system and
    [self.processed_images]; [copied] lists the [copy2] calls made, the
    latest first, as (source, destination). *)
Record state : Type := {
  fs : files;
  processed_images : gmap string string;
  copied : list (Path * Path)
}.

(** [self.processed_images = {}], line 58. *)
Definition init_state (fs0 : files) : state :=
  {| fs := fs0; processed_images := ∅; copied := [] |}.

Definition do_copy (st : state) (src dst : Path) : result state :=
  try fs' <- copy2 (fs st) src dst in
  Ok {| fs := fs'; processed_images := processed_images st;
        copied := (src, dst) :: copied st |}.

(** The loop of lines 119-127 over [potential_paths]. *)
Fixpoint try_paths (self : converter) (st : state) (img_src img_filename : string)
    (potential_paths : list Path) : result (string * state) :=
  match potential_paths with
  | [] => Ok (img_src, st)
  | img_path :: rest =>
      if exists_ (fs st) img_path then
        let dest_path := images_dir self /; img_filename in
        if negb (exists_ (fs st) dest_path) then
          try st' <- do_copy st img_path dest_path in
          Ok ("images/" +:+ img_filename, st')
        else Ok ("images/" +:+ img_filename, st)
      else try_paths self st img_src img_filename rest
  end.

Definition potential_paths (self : converter) (assets : Path) (img_src : string)
    : list Path :=
  let img_filename := basename img_src in
  [ assets /; img_filename;
    assets /; lstrip_chars "./" img_src;
    base_dir self /; lstrip_chars "./" img_src ].

(** [_process_image], lines 94-129. *)
Definition _process_image (self : converter) (st : state) (img_src : string)
    : result (string * state) :=
  if negb (nonempty img_src) then Ok ("", st)
  else if startswith "http://" img_src || startswith "https://" img_src
  then Ok (img_src, st)
  else if startswith "data:" img_src then Ok ("", st)
  else
    let img_filename := basename img_src in
    match assets_folder self with
    | Some assets =>
        try_paths self st img_src img_filename
                  (potential_paths self assets img_src)
    | None => Ok (img_src, st)
    end.

(** The body of the loop of [convert], lines 266-274, on the attributes
    of one [img]. *)
Definition rewrite_img (self : converter) (st : state) (img : gmap string string)
    : result (gmap string string * state) :=
  let src := default "" (img !! "src") in
  if nonempty src then
    try (new_src, st') <- _process_image self st src in
    let img := if nonempty new_src then <["src" := new_src]> img else img in
    let img := if negb (truthy (img !! "alt")) then <["alt" := "Image"]> img
               else img in
    Ok (img, st')
  else Ok (img, st).

(** [for img in soup.find_all('img'): ...], lines 265-274: the body runs
    on every [img] tag in document order and mutates it in place. *)
Fixpoint rewrite_images (self : converter) (st : state) (n : node)
    : result (node * state) :=
  match n with
  | Elem nm a cs =>
      try (a', st1) <- (if bool_decide (nm = "img") then rewrite_img self st a
                         else Ok (a, st)) in
      try (cs', st2) <- for_each (rewrite_images self) st1 cs in
      Ok (Elem nm a' cs', st2)
  | _ => Ok (n, st)
  end.

(** The summary of lines 301-302 and 400: the line of [convert] is
    printed only for a non-empty record; [main] prints the count. *)
Definition images_processed (st : state) : nat := size (processed_images st).

Definition summary_line (st : state) : option nat :=
  if bool_decide (processed_images st = ∅) then None
  else Some (images_processed st).

End Images.

(** ** Metadata extraction *)

Module Metadata.
Import PyStr Dom Text.

Definition in_list (x : string) (l : list string) : bool := bool_decide (x ∈ l).

(** The body of the loop over the [meta] tags, lines 142-158. *)
Definition meta_step (metadata : gmap string string) (meta : node)
    : gmap string string :=
  match py_or (get "name" meta) (get "property" meta), get "content" meta with
  | Some name, Some content =>
      if nonempty name && nonempty content then
        if in_list name ["description"; "og:description"]
        then <["description" := content]> metadata
        else if in_list name ["author"; "og:author"]
        then <["author" := content]> metadata
        else if in_list name ["keywords"]
        then <["keywords" := content]> metadata
        else if in_list name ["og:title"]
        then <["og_title" := content]> metadata
        else if in_list name ["og:url"]
        then <["url" := content]> metadata
        else if in_list name ["article:published_time"; "pubdate"]
        then <["published" := content]> metadata
        else metadata
      else metadata
  | _, _ => metadata
  end.

(** [_extract_metadata], lines 131-160. *)
Definition _extract_metadata (soup : node) : gmap string string :=
  let metadata : gmap string string := ∅ in
  let metadata :=
    match find "title" soup with
    | Some title_tag => <["title" := _clean_text (get_text title_tag)]> metadata
    | None => metadata
    end in
  foldl meta_step metadata (find_all "meta" soup).

End Metadata.

(** ** Content selection *)

Module Content.
Import PyStr Dom.

(** Lines 165-171. *)
Definition unwanted_selectors : list selector :=
  [ SelTag "script"; SelTag "style"; SelTag "nav"; SelTag "header";
    SelTag "footer";
    SelClass "advertisement"; SelClass "ad"; SelClass "popup";
    SelClass "modal";
    SelClass "cookie-banner"; SelClass "newsletter-signup";
    SelAttrSub "class" "ad-"; SelAttrSub "id" "ad-";
    SelClass "social-share"; SelClass "comments-section" ].

(** Lines 178-182. *)
Definition main_content_selectors : list selector :=
  [ SelTag "main"; SelTag "article"; SelAttrEq "role" "main";
    SelClass "post-content"; SelClass "article-content";
    SelClass "entry-content";
    SelClass "content"; SelClass "main-content" ].

(** Lines 173-175: the tree once every unwanted element is gone. *)
Definition remove_unwanted (soup : node) : node :=
  foldl (fun t sel => decompose_all sel t) soup unwanted_selectors.

(** Lines 184-187: the loop returns at the first selector that selects
    an element. *)
Fixpoint first_selected (selectors : list selector) (soup : node) : option node :=
  match selectors with
  | [] => None
  | selector :: rest =>
      match select_one selector soup with
      | Some main_element => Some main_element
      | None => first_selected rest soup
      end
  end.

(** [_extract_main_content], lines 162-191. *)
Definition _extract_main_content (soup : node) : node :=
  let soup := remove_unwanted soup in
  match first_selected main_content_selectors soup with
  | Some main_element => main_element
  | None =>
      match find "body" soup with
      | Some body => body
      | None => soup
      end
  end.

End Content.

(** ** The loader *)

Module Loader.
Import Fs.

(** Decoded text: a list of code points. *)
Abbreviation text := (list N).

Inductive encoding : Type := Utf8 | Latin1.

Definition in_range (lo hi b : N) : bool := ((lo <=? b) && (b <=? hi))%N.
Definition cont (b : N) : bool := in_range 128 191 b.

(** The strict [utf-8] codec: shortest forms only, no surrogates, nothing
    above U+10FFFF. *)
Fixpoint utf8_decode (bs : list N) : option text :=
  match bs with
  | [] => Some []
  | b0 :: r0 =>
      if (b0 <? 128)%N then cons b0 <$> utf8_decode r0
      else if in_range 194 223 b0 then
        match r0 with
        | b1 :: r1 =>
            if cont b1
            then cons ((b0 - 192) * 64 + (b1 - 128))%N <$> utf8_decode r1
            else None
        | _ => None
        end
      else if in_range 224 239 b0 then
        match r0 with
        | b1 :: b2 :: r2 =>
            if in_range (if (b0 =? 224)%N then 160 else 128)
                        (if (b0 =? 237)%N then 159 else 191) b1 && cont b2
            then cons ((b0 - 224) * 4096 + (b1 - 128) * 64 + (b2 - 128))%N
                   <$> utf8_decode r2
            else None
        | _ => None
        end
      else if in_range 240 244 b0 then
        match r0 with
        | b1 :: b2 :: b3 :: r3 =>
            if in_range (if (b0 =? 240)%N then 144 else 128)
                        (if (b0 =? 244)%N then 143 else 191) b1
               && cont b2 && cont b3
            then cons ((b0 - 240) * 262144 + (b1 - 128) * 4096
                       + (b2 - 128) * 64 + (b3 - 128))%N
                   <$> utf8_decode r3
            else None
        | _ => None
        end
      else None
  end.

(** [latin-1]: every byte is its own code point. *)
Definition latin1_decode (bs : list N) : text := bs.

Definition decode (enc : encoding) (data : list Byte.byte) : option text :=
  match enc with
  | Utf8 => utf8_decode (Byte.to_N <$> data)
  | Latin1 => Some (latin1_decode (Byte.to_N <$> data))
  end.

(** Text mode reads with universal newlines: CR LF and CR become LF. *)
Fixpoint universal_newlines (t : text) : text :=
  match t with
  | [] => []
  | c :: r =>
      if (c =? 13)%N then
        10%N :: match r with
                | d :: r' => if (d =? 10)%N then universal_newlines r'
                             else universal_newlines r
                | [] => []
                end
      else c :: universal_newlines r
  end.

(** [with open(path, 'r', encoding=enc) as f: f.read()] *)
Definition open_read (fs : files) (path : Path) (enc : encoding) : result text :=
  match fs !! path with
  | None => Raise FileNotFoundError
  | Some Dir => Raise IsADirectoryError
  | Some (File data) =>
      match decode enc data with
      | Some t => Ok (universal_newlines t)
      | None => Raise UnicodeDecodeError
      end
  end.

(** Lines 250-256 of [convert]: the encodings tried, in order, and the
    outcome of the [try] statement. *)
Definition read_html (fs : files) (html_file_path : Path)
    : list encoding * result text :=
  match open_read fs html_file_path Utf8 with
  | Raise UnicodeDecodeError =>
      ([Utf8; Latin1], open_read fs html_file_path Latin1)
  | r => ([Utf8], r)
  end.

End Loader.

(** ** Code blocks *)

Module Code.
Import PyStr Dom.

(** [code.get('class', [])]: the classes of the tag. *)
Definition classes_of (code : node) : list string :=
  match get "class" code with
  | Some v => split_ws v
  | None => []
  end.

(** Lines 201-209: the first class that begins with [language-] or
    [lang-] gives the language, through [str.replace]. *)
Fixpoint detect_language (classes : list string) : string :=
  match classes with
  | [] => ""
  | cls :: rest =>
      if startswith "language-" cls then replace "language-" "" cls
      else if startswith "lang-" cls then replace "lang-" "" cls
      else detect_language rest
  end.

(** Lines 211-216: the text that becomes [pre.string]. *)
Definition fence (code : node) : string :=
  let language := detect_language (classes_of code) in
  let code_content := get_text code in
  if nonempty language
  then "```" +:+ language +:+ NL +:+ code_content +:+ NL +:+ "```"
  else "```" +:+ NL +:+ code_content +:+ NL +:+ "```".

(** The loop body on the [pre] tags at or below [n], in document order.
    Setting [pre.string] clears the tag first, so what was below a [pre]
    that holds a [code] leaves the tree ([code.parent] is then no longer
    the [pre], and line 220 does not run); the [pre] tags that were
    below it are met later by the loop, detached, and change nothing in
    the tree. *)
Fixpoint process_pre (n : node) : node :=
  match n with
  | Elem nm a cs =>
      if bool_decide (nm = "pre") then
        match find "code" n with
        | Some code => Elem nm a [Text (fence code)]
        | None => Elem nm a (map process_pre cs)
        end
      else Elem nm a (map process_pre cs)
  | _ => n
  end.

(** [_process_code_blocks], lines 193-220, on the [pre] tags below the
    root. *)
Definition _process_code_blocks (soup : node) : node :=
  match soup with
  | Elem nm a cs => Elem nm a (map process_pre cs)
  | _ => soup
  end.

End Code.

(** * Specification-side definitions *)

Import PyStr Dom Fs Images.

(** The tags named [name] at or below [n], in document order. *)
Definition tags_in (name : string) (n : node) : list node :=
  List.filter (is_tag name) (n :: descendants n).

(** A run of the image loop over the [img] tags it visits: the body takes
    each tag's attributes and the state to the next state. *)
Inductive loop_run (self : converter)
    : state -> list node -> list node -> state -> Prop :=
| loop_done st : loop_run self st [] [] st
| loop_step st a a' st1 cs cs' es es' st2 :
    rewrite_img self st a = Ok (a', st1) ->
    loop_run self st1 es es' st2 ->
    loop_run self st (Elem "img" a cs :: es) (Elem "img" a' cs' :: es') st2.


(** ** Runs of a character class, in the words of the specification *)

(** The length of the run of [p]-characters at the head of [s]. *)
Fixpoint run_len (p : ascii -> bool) (s : string) : nat :=
  match s with
  | String c s' => if p c then S (run_len p s') else 0
  | EmptyString => 0
  end.

(** "Runs of [p] collapsed to the single character [a]"; [in_run] tells
    that the character before was in the class. *)
Fixpoint squeeze (p : ascii -> bool) (a : ascii) (in_run : bool) (s : string)
    : string :=
  match s with
  | EmptyString => EmptyString
  | String c s' =>
      if p c then
        if in_run then squeeze p a true s' else String a (squeeze p a true s')
      else String c (squeeze p a false s')
  end.

(** "3 or more consecutive [a] collapsed to exactly 2": of every run the
    first two characters stay; [seen] counts the run so far. *)
Fixpoint cap_runs (a : ascii) (seen : nat) (s : string) : string :=
  match s with
  | EmptyString => EmptyString
  | String c s' =>
      if is_char a c then
        if (seen <? 2)%nat then String c (cap_runs a (S seen) s')
        else cap_runs a (S seen) s'
      else String c (cap_runs a 0 s')
  end.

(** Every [p]-character of [s] is [a] and no two of them are adjacent;
    with [prev], the character before [s] counts as in the class. *)
Fixpoint squeezed (p : ascii -> bool) (a : ascii) (prev : bool) (s : string)
    : bool :=
  match s with
  | EmptyString => true
  | String c s' =>
      if p c then negb prev && bool_decide (c = a) && squeezed p a true s'
      else squeezed p a false s'
  end.

(** No run of [a] in [s] is longer than 2, [seen] of them counted before. *)
Fixpoint capped (a : ascii) (seen : nat) (s : string) : bool :=
  match s with
  | EmptyString => true
  | String c s' =>
      if is_char a c then (seen <? 2)%nat && capped a (S seen) s'
      else capped a 0 s'
  end.

(** Two adjacent characters of the class somewhere in [s]. *)
Fixpoint has_adjacent (p : ascii -> bool) (s : string) : bool :=
  match s with
  | String c s' =>
      match s' with
      | String d _ => p c && p d || has_adjacent p s'
      | EmptyString => false
      end
  | EmptyString => false
  end.

(** Every character of [s] is in the class. *)
Fixpoint all_of (p : ascii -> bool) (s : string) : bool :=
  match s with
  | EmptyString => true
  | String c s' => p c && all_of p s'
  end.

(** [s] begins with white space. *)
Definition starts_with_space (s : string) : bool :=
  match s with
  | String c _ => is_space c
  | EmptyString => false
  end.

(** No character of [s] is [a]. *)
Fixpoint free_of (a : ascii) (s : string) : bool :=
  match s with
  | EmptyString => true
  | String c s' => negb (is_char a c) && free_of a s'
  end.

(** No match of [r] starts anywhere in [s]. *)
Fixpoint no_match (r : Re.re) (s : string) : Prop :=
  Re.match_at r s = None /\
  match s with
  | String _ s' => no_match r s'
  | EmptyString => True
  end.

(** The tree without the [src] and [alt] of its [img] tags. *)
Fixpoint erase_img (n : node) : node :=
  match n with
  | Elem nm a cs =>
      Elem nm (if bool_decide (nm = "img") then delete "alt" (delete "src" a)
               else a)
           (map erase_img cs)
  | _ => n
  end.


(** The table of recognised [meta] names, as the specification lists it:
    name, then metadata key. *)
Definition recognized : list (string * string) :=
  [ ("description", "description"); ("og:description", "description");
    ("author", "author"); ("og:author", "author");
    ("keywords", "keywords");
    ("og:title", "og_title");
    ("og:url", "url");
    ("article:published_time", "published"); ("pubdate", "published") ].

Definition key_of (name : string) : option string :=
  snd <$> List.find (fun x => bool_decide (x.1 = name)) recognized.

(** What a [meta] tag contributes: the key of its name and its content,
    when both are there and not empty; the name is the [name] attribute,
    or [property] when [name] is absent or empty. *)
Definition contribution (meta : node) : option (string * string) :=
  match py_or (get "name" meta) (get "property" meta), get "content" meta with
  | Some name, Some content =>
      if nonempty name && nonempty content
      then (fun k => (k, content)) <$> key_of name
      else None
  | _, _ => None
  end.

(** Inputs used to run the stage: a page saved as [/in/page.html] with
    its assets in [/in/page_files], the output going to [/out]. *)
Module Sample.

Definition page : converter :=
  {| base_dir := path_of "/in";
     assets_folder := Some (path_of "/in/page_files");
     images_dir := path_of "/out/images" |}.

Definition png : entry := File [Byte.x89; Byte.x50; Byte.x4e; Byte.x47].

(** [foo.png] is in the assets folder, [logo.png] next to the page. *)
Definition disk : files :=
  <[path_of "/in/page_files/foo.png" := png]>
    (<[path_of "/in/logo.png" := png]>
       (<[path_of "/in/page_files" := Dir]>
          (<[path_of "/in" := Dir]>
             (<[path_of "/out/images" := Dir]> ∅)))).

Definition img (attrs : gmap string string) : node := Elem "img" attrs [].

Definition body (children : list node) : node :=
  soup_of [Elem "html" ∅ [Elem "body" ∅ children]].

Definition data_uri : string := "data:image/png;base64,iVBORw0KGgo=".

(* <img src="data:image/png;base64,iVBORw0KGgo="> *)
Definition doc_data : node := body [img {["src" := data_uri]}].

(* <img> *)
Definition doc_bare : node := body [img ∅].

(* <img src="foo.png"> *)
Definition doc_foo : node := body [img {["src" := "foo.png"]}].


(* <img src="/logo.png"> *)
Definition doc_logo : node := body [img {["src" := "/logo.png"]}].

(* <p><img src="foo.png" alt="A"><img src="./foo.png"></p>
   <img src="https://example.org/x.png"> *)
Definition doc_mixed : node :=
  body [ Elem "p" ∅ [ img (<["alt" := "A"]> {["src" := "foo.png"]});
                      img {["src" := "./foo.png"]} ];
         img {["src" := "https://example.org/x.png"]} ].

Definition meta (attrs : gmap string string) : node := Elem "meta" attrs [].

(* <meta name="description" content="A">
   <meta name="description" content=""> *)
Definition doc_meta_empty : node :=
  soup_of [Elem "html" ∅ [Elem "head" ∅
    [ meta (<["content" := "A"]> {["name" := "description"]});
      meta (<["content" := ""]> {["name" := "description"]}) ]]].

(* <title>T</title>
   <meta name="description" content="A">
   <meta property="og:description" content="B">
   <meta name="keywords" content="k"> *)
Definition doc_meta : node :=
  soup_of [Elem "html" ∅ [Elem "head" ∅
    [ Elem "title" ∅ [Text "T"];
      meta (<["content" := "A"]> {["name" := "description"]});
      meta (<["content" := "B"]> {["property" := "og:description"]});
      meta (<["content" := "k"]> {["name" := "keywords"]}) ]]].

(* <nav>menu</nav><div class="content">side</div><article>x</article> *)
Definition doc_article : node :=
  body [ Elem "nav" ∅ [Text "menu"];
         Elem "div" {["class" := "content"]} [Text "side"];
         Elem "article" ∅ [Text "x"] ].

(* A file that is not UTF-8 (a lone 0xE9, the Latin-1 e-acute), one that
   is, and a directory. *)
Definition disk_html : files :=
  <[path_of "/in/latin.html" := File [Byte.x3c; Byte.xe9; Byte.x3e]]>
    (<[path_of "/in/utf8.html" := File [Byte.x3c; Byte.xc3; Byte.xa9; Byte.x3e]]>
       (<[path_of "/in" := Dir]> ∅)).

(** The attribute [key] of every [img] once the stage has run. *)
Definition img_attr (key : string) (r : result (node * state))
    : option (list (option string)) :=
  match r with
  | Ok (soup, _) => Some (get key <$> find_all "img" soup)
  | Raise _ => None
  end.

End Sample.

(** The claim on local references read to the letter: a leading ["./"] is
    taken off, nothing else. *)
Module Stated.



(** A tag maps to a key when it has a name, from [name] or else from
    [property], that the table knows, and a [content] attribute. *)
Definition mapping (meta : node) : option (string * string) :=
  match from_option Some (get "property" meta) (get "name" meta),
        get "content" meta with
  | Some name, Some content => (fun k => (k, content)) <$> key_of name
  | _, _ => None
  end.

End Stated.

(** * The image stage *)

Lemma node_ind' (P : node -> Prop) :
  (forall s, P (Text s)) ->
  (forall s, P (Comment s)) ->
  (forall nm a cs, Forall P cs -> P (Elem nm a cs)) ->
  forall n, P n.
Proof.
  intros HT HC HE. fix IH 1. intros [s|s|nm a cs]; [apply HT | apply HC |].
  apply HE. induction cs as [|c cs IHcs]; constructor; [apply IH | exact IHcs].
Qed.

Section ImageLoop.
Variable self : converter.

Lemma loop_run_app st l1 l1' st1 l2 l2' st2 :
  loop_run self st l1 l1' st1 ->
  loop_run self st1 l2 l2' st2 ->
  loop_run self st (l1 ++ l2) (l1' ++ l2') st2.
Proof.
  induction 1 as [|? ? ? ? ? ? ? ? ? Hb _ IH]; intros H2; simpl; auto.
  eapply loop_step; eauto.
Qed.

Lemma for_each_run (cs : list node) :
  Forall (fun c => forall st c' st',
            rewrite_images self st c = Ok (c', st') ->
            loop_run self st (tags_in "img" c) (tags_in "img" c') st') cs ->
  forall st cs' st',
    for_each (rewrite_images self) st cs = Ok (cs', st') ->
    loop_run self st
      (List.filter (is_tag "img") (flat_map (fun c => c :: descendants c) cs))
      (List.filter (is_tag "img") (flat_map (fun c => c :: descendants c) cs'))
      st'.
Proof.
  induction 1 as [|c cs Hc _ IH]; intros st cs' st' H; simpl in H.
  - simplify_eq. constructor.
  - destruct (rewrite_images self st c) as [[c1 st1]|] eqn:E1; [|done].
    simpl in H.
    destruct (for_each (rewrite_images self) st1 cs) as [[cs1 st2]|] eqn:E2;
      [|done].
    simpl in H. simplify_eq.
    change (flat_map ?f (?x :: ?l)) with (f x ++ flat_map f l).
    rewrite !List.filter_app.
    eapply loop_run_app; [exact (Hc _ _ _ E1) | exact (IH _ _ _ E2)].
Qed.

(** The traversal visits the [img] tags in document order and runs the
    loop body on each. *)
Lemma rewrite_images_run n :
  forall st n' st',
    rewrite_images self st n = Ok (n', st') ->
    loop_run self st (tags_in "img" n) (tags_in "img" n') st'.
Proof.
  induction n as [s|s|nm a cs IH] using node_ind'; intros st n' st' H;
    simpl in H.
  - simplify_eq. constructor.
  - simplify_eq. constructor.
  - destruct (bool_decide (nm = "img")) eqn:Enm.
    + apply bool_decide_eq_true in Enm. subst nm.
      destruct (rewrite_img self st a) as [[a1 st1]|] eqn:E1; [|done].
      simpl in H.
      destruct (for_each (rewrite_images self) st1 cs) as [[cs1 st2]|] eqn:E2;
        [|done].
      simpl in H. simplify_eq.
      unfold tags_in. simpl.
      eapply loop_step; [exact E1|]. by apply for_each_run.
    + simpl in H.
      destruct (for_each (rewrite_images self) st cs) as [[cs1 st2]|] eqn:E2;
        [|done].
      simpl in H. simplify_eq.
      unfold tags_in. simpl. rewrite Enm.
      by apply for_each_run.
Qed.

Lemma loop_run_Forall2 (P : gmap string string -> gmap string string -> Prop) :
  (forall st a a' st1, rewrite_img self st a = Ok (a', st1) -> P a a') ->
  forall st es es' st',
    loop_run self st es es' st' ->
    Forall2 (fun e e' => P (attrs_of e) (attrs_of e')) es es'.
Proof.
  intros HP st es es' st'. induction 1; constructor; simpl; eauto.
Qed.

Lemma loop_run_invariant (I : state -> Prop) :
  (forall st a a' st1, rewrite_img self st a = Ok (a', st1) -> I st -> I st1) ->
  forall st es es' st', loop_run self st es es' st' -> I st -> I st'.
Proof.
  intros HI st es es' st'. induction 1; eauto.
Qed.

Lemma tags_in_find_all name n :
  tags_in name n = (if is_tag name n then [n] else []) ++ find_all name n.
Proof. unfold tags_in, find_all. simpl. by destruct (is_tag name n). Qed.

(** What the loop body guarantees for every tag holds between the [img]
    tags of the tree before and after the stage. *)
Lemma rewrite_images_Forall2 (P : gmap string string -> gmap string string -> Prop) :
  (forall st a a' st1, rewrite_img self st a = Ok (a', st1) -> P a a') ->
  forall st n n' st',
    rewrite_images self st n = Ok (n', st') ->
    Forall2 (fun e e' => P (attrs_of e) (attrs_of e'))
            (find_all "img" n) (find_all "img" n').
Proof.
  intros HP st n n' st' H.
  pose proof (loop_run_Forall2 P HP _ _ _ _ (rewrite_images_run _ _ _ _ H)) as HF.
  rewrite !tags_in_find_all in HF.
  destruct n as [s|s|nm a cs]; simpl in H.
  - by simplify_eq.
  - by simplify_eq.
  - destruct (if bool_decide (nm = "img") then rewrite_img self st a
              else Ok (a, st)) as [[a1 st1]|]; [|done].
    simpl in H.
    destruct (for_each (rewrite_images self) st1 cs) as [[cs1 st2]|]; [|done].
    simpl in H. simplify_eq. simpl in HF.
    destruct (bool_decide (nm = "img")); simpl in HF; [|done].
    by inversion HF.
Qed.

Lemma rewrite_images_invariant (I : state -> Prop) :
  (forall st a a' st1, rewrite_img self st a = Ok (a', st1) -> I st -> I st1) ->
  forall st n n' st',
    rewrite_images self st n = Ok (n', st') -> I st -> I st'.
Proof.
  intros HI st n n' st' H.
  eapply loop_run_invariant; [exact HI|]. by apply rewrite_images_run.
Qed.

End ImageLoop.

(** ** The loop body, case by case *)

Lemma startswith_data src :
  startswith "data:" src = true ->
  nonempty src = true /\ startswith "http://" src = false
  /\ startswith "https://" src = false.
Proof.
  destruct src as [|c s]; simpl; [done|].
  case_bool_decide; [subst c|done]. intros _. by vm_compute.
Qed.

Lemma process_image_data self st src :
  startswith "data:" src = true -> _process_image self st src = Ok ("", st).
Proof.
  intros H. destruct (startswith_data _ H) as (Hn & Hh & Hs).
  unfold _process_image. by rewrite Hn, Hh, Hs, H.
Qed.

Lemma try_paths_find self st src name ps :
  try_paths self st src name ps =
  match List.find (exists_ (fs st)) ps with
  | None => Ok (src, st)
  | Some p =>
      if negb (exists_ (fs st) (images_dir self /; name)) then
        try st' <- do_copy st p (images_dir self /; name) in
        Ok ("images/" +:+ name, st')
      else Ok ("images/" +:+ name, st)
  end.
Proof.
  induction ps as [|p ps IH]; simpl; [done|].
  by destruct (exists_ (fs st) p).
Qed.

(** The body never touches [self.processed_images]. *)
Lemma process_image_record self st src new_src st' :
  _process_image self st src = Ok (new_src, st') ->
  processed_images st' = processed_images st.
Proof.
  unfold _process_image.
  destruct (negb (nonempty src)); [by intros; simplify_eq|].
  destruct (_ || _); [by intros; simplify_eq|].
  destruct (startswith "data:" src); [by intros; simplify_eq|].
  destruct (assets_folder self) as [assets|]; [|by intros; simplify_eq].
  rewrite try_paths_find.
  destruct (List.find _ _) as [p|]; [|by intros; simplify_eq].
  destruct (negb _); [|by intros; simplify_eq].
  unfold do_copy, copy2.
  destruct (fs st !! p) as [[data|]|]; simpl; intros; by simplify_eq.
Qed.

Lemma rewrite_img_record self st a a' st' :
  rewrite_img self st a = Ok (a', st') ->
  processed_images st' = processed_images st.
Proof.
  unfold rewrite_img. case_match; [|by intros; simplify_eq].
  destruct (_process_image self st _) as [[new_src st1]|] eqn:E; [|done].
  simpl. intros; simplify_eq. by eapply process_image_record.
Qed.

(** The [src] of a tag after the body: the replacement when it is not
    empty, else what it was. *)
Lemma rewrite_img_src self st a a' st' :
  rewrite_img self st a = Ok (a', st') ->
  a' !! "src" = a !! "src" \/
  exists new_src st0,
    _process_image self st0 (default "" (a !! "src")) = Ok (new_src, st')
    /\ nonempty new_src = true /\ a' !! "src" = Some new_src.
Proof.
  unfold rewrite_img. case_match; [|intros; simplify_eq; by left].
  destruct (_process_image self st _) as [[new_src st1]|] eqn:E; [|done].
  simpl. intros Hr. simplify_eq.
  destruct (nonempty new_src) eqn:En.
  - right. exists new_src, st. split_and!; [done..|].
    case_match; by simplify_map_eq.
  - left. case_match; by simplify_map_eq.
Qed.

(** ** The stage on the whole tree *)

(** C10.  Every [img] whose [src] is not empty before the image stage has
    a non-empty [src] after it: the loop body either leaves the attribute
    as it was or assigns a replacement that is not the empty string. *)
Theorem src_stays_nonempty (self : converter) (st st' : state) (soup soup' : node) :
  rewrite_images self st soup = Ok (soup', st') ->
  Forall2 (fun e e' =>
             (truthy (get "src" e) = true -> truthy (get "src" e') = true)
             /\ (get "src" e' = get "src" e
                 \/ exists new_src, get "src" e' = Some new_src
                                    /\ nonempty new_src = true))
          (find_all "img" soup) (find_all "img" soup').
Proof.
  apply (rewrite_images_Forall2 self (fun a a' =>
    (truthy (a !! "src") = true -> truthy (a' !! "src") = true)
    /\ (a' !! "src" = a !! "src"
        \/ exists new_src, a' !! "src" = Some new_src /\ nonempty new_src = true))).
  intros st0 a a' st1 H.
  destruct (rewrite_img_src _ _ _ _ _ H) as [E|(new_src & _ & _ & Hn & E)].
  - rewrite E. split; [done | by left].
  - rewrite E. simpl. split; [done | right; eauto].
Qed.

Lemma src_stays_nonempty_witness :
  Forall2 (fun e e' =>
             (truthy (get "src" e) = true -> truthy (get "src" e') = true)
             /\ (get "src" e' = get "src" e
                 \/ exists new_src, get "src" e' = Some new_src
                                    /\ nonempty new_src = true))
          (find_all "img" Sample.doc_mixed)
          (find_all "img"
             (Sample.body
                [ Elem "p" ∅
                    [ Sample.img (<["alt" := "A"]> {["src" := "images/foo.png"]});
                      Sample.img (<["alt" := "Image"]> {["src" := "images/foo.png"]}) ];
                  Sample.img (<["alt" := "Image"]>
                                {["src" := "https://example.org/x.png"]}) ])).
Proof.
  eapply (src_stays_nonempty Sample.page (init_state Sample.disk)).
  vm_compute. reflexivity.
Defined.

(** C1, as the code has it.  For a [src] that begins with [data:],
    [_process_image] returns the empty string and changes nothing, and the
    loop, which assigns only a non-empty replacement, leaves the [src] of
    the tag as it was: the inline image reference stays in the tree. *)
Theorem data_src_kept (self : converter) (st st' : state) (soup soup' : node) :
  rewrite_images self st soup = Ok (soup', st') ->
  (forall st0 src, startswith "data:" src = true ->
                   _process_image self st0 src = Ok ("", st0))
  /\ Forall2 (fun e e' =>
                forall src, get "src" e = Some src ->
                            startswith "data:" src = true ->
                            get "src" e' = Some src)
             (find_all "img" soup) (find_all "img" soup').
Proof.
  intros H. split; [intros; by apply process_image_data|].
  revert H.
  apply (rewrite_images_Forall2 self (fun a a' =>
    forall src, a !! "src" = Some src -> startswith "data:" src = true ->
                a' !! "src" = Some src)).
  intros st0 a a' st1 H src Ha Hd.
  destruct (rewrite_img_src _ _ _ _ _ H) as [E|(new_src & st2 & Hp & Hn & E)].
  - by rewrite E.
  - rewrite Ha in Hp. simpl in Hp.
    rewrite (process_image_data _ _ _ Hd) in Hp. by simplify_eq.
Qed.

Lemma data_src_kept_witness :
  (forall st0 src, startswith "data:" src = true ->
                   _process_image Sample.page st0 src = Ok ("", st0))
  /\ Forall2 (fun e e' =>
                forall src, get "src" e = Some src ->
                            startswith "data:" src = true ->
                            get "src" e' = Some src)
             (find_all "img" Sample.doc_data)
             (find_all "img"
                (Sample.body
                   [Sample.img (<["alt" := "Image"]> {["src" := Sample.data_uri]})])).
Proof.
  eapply (data_src_kept Sample.page (init_state Sample.disk)).
  vm_compute. reflexivity.
Defined.

(** C1 as stated fails: after the stage, the [src] of
    [<img src="data:image/png;base64,iVBORw0KGgo=">] is not the empty
    string; it is the [data:] reference still. *)
Lemma data_src_not_cleared :
  ~ (forall soup' st',
       rewrite_images Sample.page (init_state Sample.disk) Sample.doc_data
         = Ok (soup', st') ->
       Forall (fun e => get "src" e = Some "") (find_all "img" soup')).
Proof.
  intros H.
  assert (E : exists r, rewrite_images Sample.page (init_state Sample.disk)
                          Sample.doc_data = Ok r
                        /\ get "src" <$> find_all "img" r.1
                           = [Some Sample.data_uri]).
  { eexists. split; [vm_compute; reflexivity|]. vm_compute. reflexivity. }
  destruct E as ([soup' st'] & E & Hs). specialize (H _ _ E). simpl in Hs.
  destruct (find_all "img" soup') as [|e [|]]; simplify_eq/=.
  inversion_clear H as [|? ? He _]. rewrite He in *. by simplify_eq.
Qed.

(** C6, as the code has it.  An [img] with a non-empty [src] and no [alt]
    (or an empty one) has the [alt] ["Image"] after the stage; an [img]
    whose [src] is empty or absent keeps all its attributes as they were,
    so a missing [alt] stays missing. *)
Theorem alt_filled_when_src (self : converter) (st st' : state) (soup soup' : node) :
  rewrite_images self st soup = Ok (soup', st') ->
  Forall2 (fun e e' =>
             (truthy (get "src" e) = true -> truthy (get "alt" e) = false ->
              get "alt" e' = Some "Image")
             /\ (truthy (get "src" e) = false -> attrs_of e' = attrs_of e))
          (find_all "img" soup) (find_all "img" soup').
Proof.
  apply (rewrite_images_Forall2 self (fun a a' =>
    (truthy (a !! "src") = true -> truthy (a !! "alt") = false ->
     a' !! "alt" = Some "Image")
    /\ (truthy (a !! "src") = false -> a' = a))).
  intros st0 a a' st1. unfold rewrite_img.
  assert (Hs : nonempty (default "" (a !! "src")) = truthy (a !! "src"))
    by (by destruct (a !! "src")).
  rewrite Hs. destruct (truthy (a !! "src")).
  - destruct (_process_image self st0 _) as [[new_src st2]|]; [|done].
    simpl. intros Hr. simplify_eq. split; [|done]. intros _ Halt.
    assert (Ha : forall b : gmap string string,
               b !! "alt" = a !! "alt" ->
               (if negb (truthy (b !! "alt")) then <["alt" := "Image"]> b else b)
                 !! "alt" = Some "Image").
    { intros b Hb. rewrite Hb, Halt. simpl. by simplify_map_eq. }
    apply Ha. destruct (nonempty new_src); by simplify_map_eq.
  - intros Hr. by simplify_eq.
Qed.

Lemma alt_filled_when_src_witness :
  Forall2 (fun e e' =>
             (truthy (get "src" e) = true -> truthy (get "alt" e) = false ->
              get "alt" e' = Some "Image")
             /\ (truthy (get "src" e) = false -> attrs_of e' = attrs_of e))
          (find_all "img" Sample.doc_foo)
          (find_all "img"
             (Sample.body
                [Sample.img (<["alt" := "Image"]> {["src" := "images/foo.png"]})])).
Proof.
  eapply (alt_filled_when_src Sample.page (init_state Sample.disk)).
  vm_compute. reflexivity.
Defined.

(** C6 as stated fails: [<img>], with neither [src] nor [alt], has no
    [alt] after the stage. *)
Lemma alt_not_filled_without_src :
  ~ (forall soup' st',
       rewrite_images Sample.page (init_state Sample.disk) Sample.doc_bare
         = Ok (soup', st') ->
       Forall (fun e => get "alt" e = Some "Image") (find_all "img" soup')).
Proof.
  intros H.
  assert (E : exists r, rewrite_images Sample.page (init_state Sample.disk)
                          Sample.doc_bare = Ok r
                        /\ get "alt" <$> find_all "img" r.1 = [None]).
  { eexists. split; [vm_compute; reflexivity|]. vm_compute. reflexivity. }
  destruct E as ([soup' st'] & E & Hs). specialize (H _ _ E). simpl in Hs.
  destruct (find_all "img" soup') as [|e [|]]; simplify_eq/=.
  inversion_clear H as [|? ? He _]. rewrite He in *. by simplify_eq.
Qed.

(** The stage leaves [self.processed_images] as it found it. *)
Lemma processed_images_unchanged self st st' soup soup' :
  rewrite_images self st soup = Ok (soup', st') ->
  processed_images st' = processed_images st.
Proof.
  intros H.
  apply (rewrite_images_invariant self
           (fun s => processed_images s = processed_images st)
           ltac:(intros ? ? ? ? Hr Hi; rewrite <- Hi;
                 exact (rewrite_img_record _ _ _ _ _ Hr))
           _ _ _ _ H eq_refl).
Qed.

(** C2, on [<img src="foo.png">] with [foo.png] in the assets folder: the
    image is copied and the [src] rewritten, and [self.processed_images]
    is still empty, so the count reported is 0 and the summary line of
    [convert] is not printed. *)
Theorem processed_images_not_recorded :
  exists soup' st',
    rewrite_images Sample.page (init_state Sample.disk) Sample.doc_foo
      = Ok (soup', st')
    /\ get "src" <$> find_all "img" soup' = [Some "images/foo.png"]
    /\ copied st' = [(path_of "/in/page_files/foo.png",
                      path_of "/out/images/foo.png")]
    /\ fs st' !! path_of "/out/images/foo.png" = Some Sample.png
    /\ processed_images st' = ∅
    /\ images_processed st' = 0
    /\ summary_line st' = None.
Proof.
  do 2 eexists. split; [vm_compute; reflexivity|].
  split_and!; by vm_compute.
Qed.

(** ** Local references *)








(** * Content selection *)

Import Content.





(** * The loader *)

Import Loader.

Lemma open_read_latin1 (fs : files) path :
  open_read fs path Latin1 <> Raise UnicodeDecodeError.
Proof. unfold open_read. by destruct (fs !! path) as [[data|]|]. Qed.

(** C9.  The loader opens the file as UTF-8 first.  It opens it again,
    once, as Latin-1 exactly when the file is there and its bytes are not
    UTF-8; Latin-1 decodes every byte sequence, so the text is returned
    then and the decoding failure is never the outcome.  No other encoding
    is tried.  A file that is missing or is a directory raises, and the
    exception is the outcome of the loader. *)
Theorem loader_decoding (fs : files) (path : Path) :
  let attempts := (read_html fs path).1 in
  let outcome := (read_html fs path).2 in
  (attempts = [Utf8] \/ attempts = [Utf8; Latin1])
  /\ (attempts = [Utf8; Latin1] <->
      exists data, fs !! path = Some (File data) /\ decode Utf8 data = None)
  /\ (forall data, exists t, decode Latin1 data = Some t)
  /\ (forall data t, fs !! path = Some (File data) -> decode Utf8 data = Some t ->
                     outcome = Ok (universal_newlines t))
  /\ (forall data, fs !! path = Some (File data) -> decode Utf8 data = None ->
                   outcome = Ok (universal_newlines
                                   (latin1_decode (Byte.to_N <$> data))))
  /\ outcome <> Raise UnicodeDecodeError
  /\ (fs !! path = None -> outcome = Raise FileNotFoundError)
  /\ (fs !! path = Some Dir -> outcome = Raise IsADirectoryError).
Proof.
  unfold read_html, open_read.
  assert (Hl : forall data, exists t, decode Latin1 data = Some t)
    by (intros data; by eexists).
  destruct (fs !! path) as [[data|]|] eqn:E; simpl;
    [destruct (utf8_decode (Byte.to_N <$> data)) as [t|] eqn:Ed; simpl|..];
    (split; [by auto|]); (split; [|split; [exact Hl|]]).
  - split; [done|]. intros (d & Hd & Hn). by simplify_eq.
  - split_and!; try done; intros; by simplify_eq.
  - split; [|done]. intros _. by exists data.
  - split_and!; try done; intros; by simplify_eq.
  - split; [done|]. by intros (d & Hd & _).
  - by split_and!.
  - split; [done|]. by intros (d & Hd & _).
  - by split_and!.
Qed.

Lemma loader_decoding_witness :
  read_html Sample.disk_html (path_of "/in/latin.html")
  = ([Utf8; Latin1], Ok [60; 233; 62]%N)
  /\ read_html Sample.disk_html (path_of "/in/utf8.html")
     = ([Utf8], Ok [60; 233; 62]%N)
  /\ (read_html Sample.disk_html (path_of "/in")).2 = Raise IsADirectoryError.
Proof.
  split_and!.
  - pose proof (loader_decoding Sample.disk_html (path_of "/in/latin.html"))
      as (_ & Ha & _ & _ & Ho & _).
    apply injective_projections; simpl.
    + apply Ha. eexists. split; vm_compute; reflexivity.
    + apply (Ho [Byte.x3c; Byte.xe9; Byte.x3e]); vm_compute; reflexivity.
  - vm_compute. reflexivity.
  - apply (loader_decoding Sample.disk_html (path_of "/in")).
    vm_compute. reflexivity.
Defined.

(** * Metadata *)

Import Metadata.

Lemma in_list_false x (l : list string) :
  Forall (fun y => x <> y) l -> in_list x l = false.
Proof.
  intros H. apply bool_decide_eq_false_2. intros Hx.
  rewrite Forall_forall in H. by apply (H x).
Qed.

Lemma key_of_other name :
  Forall (fun y => name <> y.1) recognized -> key_of name = None.
Proof.
  unfold key_of. intros H.
  induction H as [|y l Hy _ IH]; simpl; [done|].
  rewrite bool_decide_eq_false_2 by (intros E; by apply Hy). exact IH.
Qed.

(** The [if]/[elif] chain of the loop body is the table. *)
Lemma meta_step_contribution metadata meta :
  meta_step metadata meta =
  match contribution meta with
  | Some (k, content) => <[k := content]> metadata
  | None => metadata
  end.
Proof.
  unfold meta_step, contribution.
  destruct (py_or _ _) as [name|]; [|done].
  destruct (get "content" meta) as [content|]; [|done].
  destruct (nonempty name && nonempty content); [|done].
  destruct (decide (name = "description")) as [->|?]; [done|].
  destruct (decide (name = "og:description")) as [->|?]; [done|].
  destruct (decide (name = "author")) as [->|?]; [done|].
  destruct (decide (name = "og:author")) as [->|?]; [done|].
  destruct (decide (name = "keywords")) as [->|?]; [done|].
  destruct (decide (name = "og:title")) as [->|?]; [done|].
  destruct (decide (name = "og:url")) as [->|?]; [done|].
  destruct (decide (name = "article:published_time")) as [->|?]; [done|].
  destruct (decide (name = "pubdate")) as [->|?]; [done|].
  rewrite !in_list_false by (repeat constructor; done).
  rewrite key_of_other by (repeat constructor; done). done.
Qed.

Lemma foldl_meta_step_other k (post : list node) :
  Forall (fun m => forall c, contribution m <> Some (k, c)) post ->
  forall metadata : gmap string string,
    foldl meta_step metadata post !! k = metadata !! k.
Proof.
  induction 1 as [|m post Hm _ IH]; intros metadata; simpl; [done|].
  rewrite IH, meta_step_contribution.
  destruct (contribution m) as [[k' c']|] eqn:E; [|done].
  apply lookup_insert_ne. intros ->. by apply (Hm c').
Qed.

(** X9.  A [meta] tag contributes when it has a
    non-empty name (its [name] attribute, or [property] when [name] is
    absent or empty) that the table knows and a non-empty [content]; a
    tag that does not contribute changes nothing.  The value extracted
    for a key is the content of the last contributing tag for that key in
    document order. *)
Theorem last_meta_wins (soup : node) (before after : list node) (m : node)
    (k c : string) :
  find_all "meta" soup = before ++ m :: after ->
  contribution m = Some (k, c) ->
  Forall (fun m' => forall c', contribution m' <> Some (k, c')) after ->
  _extract_metadata soup !! k = Some c
  /\ get "content" m = Some c /\ c <> ""
  /\ (exists name,
        (if truthy (get "name" m) then get "name" m else get "property" m)
        = Some name
        /\ name <> "" /\ key_of name = Some k)
  /\ (forall metadata m', contribution m' = None ->
                          meta_step metadata m' = metadata).
Proof.
  intros Hl Hm Hafter. split_and!.
  - unfold _extract_metadata. rewrite Hl, foldl_app. simpl.
    rewrite foldl_meta_step_other by done.
    rewrite meta_step_contribution, Hm. by simplify_map_eq.
  - unfold contribution in Hm. repeat case_match; simplify_eq.
    destruct (key_of _); by simplify_eq/=.
  - unfold contribution in Hm. repeat case_match; simplify_eq.
    destruct (key_of _); simplify_eq/=.
    intros ->. by rewrite andb_false_r in *.
  - unfold contribution, py_or in Hm.
    destruct (if truthy (get "name" m) then _ else _) as [name|]; [|done].
    destruct (get "content" m) as [content|]; [|done].
    destruct (nonempty name) eqn:En; [|done]. simpl in Hm.
    destruct (nonempty content); [|done].
    destruct (key_of name) as [k'|] eqn:Ek; simplify_eq/=.
    exists name. split_and!; [done| |done]. by intros ->.
  - intros metadata m' Hn. by rewrite meta_step_contribution, Hn.
Qed.

Lemma last_meta_wins_witness :
  _extract_metadata Sample.doc_meta !! "description" = Some "B".
Proof.
  pose (a := Sample.meta (<["content" := "A"]> {["name" := "description"]})).
  pose (b := Sample.meta (<["content" := "B"]> {["property" := "og:description"]})).
  pose (c := Sample.meta (<["content" := "k"]> {["name" := "keywords"]})).
  apply (last_meta_wins Sample.doc_meta [a] [c] b "description" "B").
  - vm_compute. reflexivity.
  - vm_compute. reflexivity.
  - repeat constructor. intros c'. vm_compute. discriminate.
Defined.

(** The last tag for a key does not win when its content is empty: in [<meta name="description" content="A">
    <meta name="description" content="">] the last tag that maps to
    [description] has the content [""], and the value extracted is ["A"]. *)
Lemma empty_content_does_not_win :
  last (omap Stated.mapping (find_all "meta" Sample.doc_meta_empty))
  = Some ("description", "")
  /\ _extract_metadata Sample.doc_meta_empty !! "description" <> Some "".
Proof. split; [vm_compute; reflexivity|]. vm_compute. discriminate. Qed.

(** * Regular expressions: what [re.sub] does on the converter's patterns *)

Import Re Text.

Lemma length_drop n s : String.length (drop n s) = String.length s - n.
Proof.
  revert n. induction s as [|c s IH]; intros [|n]; simpl; auto.
Qed.

Lemma run_len_le p s : run_len p s <= String.length s.
Proof. induction s as [|c s IH]; simpl; [done|]. destruct (p c); lia. Qed.

Lemma append_nil s : "" +:+ s = s.
Proof. reflexivity. Qed.

Lemma append_cons c s t : String c s +:+ t = String c (s +:+ t).
Proof. reflexivity. Qed.

Lemma append_empty_r s : s +:+ "" = s.
Proof.
  induction s as [|c s IH]; [done|]. rewrite append_cons. f_equal. exact IH.
Qed.

Section RepeatedClass.
Variable p : ascii -> bool.

(** A greedy repetition whose continuation cannot fail takes the whole
    run, when the run is long enough. *)
Lemma rep_total (k : string -> outcome) :
  (forall s, k s <> None) ->
  forall s lo,
    rep p lo None s k =
    if (lo <=? run_len p s)%nat then k (drop (run_len p s) s) else None.
Proof.
  intros Hk. induction s as [|c s IH]; intros lo; simpl.
  - by destruct lo.
  - destruct (p c); simpl.
    + rewrite IH.
      destruct (Nat.leb_spec (Nat.pred lo) (run_len p s)) as [Hle|Hgt].
      * destruct (k (drop (run_len p s) s)) as [x|] eqn:Ek; [|by apply Hk in Ek].
        destruct (Nat.leb_spec lo (S (run_len p s))); [done|lia].
      * destruct (Nat.leb_spec lo (S (run_len p s))); [lia|].
        destruct lo; [lia|done].
    + by destruct lo.
Qed.

Lemma match_at_rep lo s :
  match_at (Rep p lo None) s =
  if (lo <=? run_len p s)%nat then Some (run_len p s, []) else None.
Proof.
  unfold match_at. simpl. rewrite rep_total by done.
  destruct (lo <=? run_len p s)%nat; [|done].
  rewrite length_drop. pose proof (run_len_le p s). do 2 f_equal. lia.
Qed.

(** [re.sub] of [p{lo,}] (for [lo >= 1]) by a literal, one character on. *)
Lemma sub_go_rep_cons lo l c s :
  sub_go (Rep p (S lo) None) [Lit l] 0 (String c s) =
  if (S lo <=? run_len p (String c s))%nat
  then l +:+ sub_go (Rep p (S lo) None) [Lit l] (run_len p (String c s) - 1) s
  else String c (sub_go (Rep p (S lo) None) [Lit l] 0 s).
Proof.
  cbn [sub_go]. rewrite match_at_rep.
  destruct (Nat.leb_spec (S lo) (run_len p (String c s))) as [Hle|Hgt]; [|done].
  destruct (run_len p (String c s)) as [|n] eqn:En; [lia|].
  simpl. by rewrite append_empty_r, Nat.sub_0_r.
Qed.

Lemma sub_go_rep_nil lo l :
  sub_go (Rep p (S lo) None) [Lit l] 0 "" = "".
Proof. done. Qed.

(** The pattern [p+] replaced by one character: runs are squeezed. *)
Lemma sub_plus_squeeze a s :
  sub_go (plus p) [Lit (str1 a)] 0 s = squeeze p a false s
  /\ sub_go (plus p) [Lit (str1 a)] (run_len p s) s = squeeze p a true s.
Proof.
  unfold plus. induction s as [|c s [IH0 IH1]]; [done|].
  assert (H0 : sub_go (Rep p 1 None) [Lit (str1 a)] 0 (String c s)
               = squeeze p a false (String c s)).
  { rewrite sub_go_rep_cons. simpl. destruct (p c); simpl.
    - by rewrite Nat.sub_0_r, IH1.
    - by rewrite IH0. }
  split; [exact H0|].
  simpl run_len. destruct (p c) eqn:Ep.
  - simpl. by rewrite Ep, IH1.
  - rewrite H0. simpl. by rewrite Ep.
Qed.

End RepeatedClass.

Lemma is_char_refl a : is_char a a = true.
Proof. by apply bool_decide_eq_true. Qed.

Lemma cap_runs_ge2 a n s : 2 <= n -> cap_runs a n s = cap_runs a 2 s.
Proof.
  revert n. induction s as [|c s IH]; intros n Hn; simpl; [done|].
  destruct (is_char a c); [|done].
  destruct (Nat.ltb_spec n 2); [lia|]. simpl.
  rewrite (IH (S n)), (IH 3); [done|lia..].
Qed.

(** The pattern [a{3,}] replaced by [aa]: of every run two characters
    stay. *)
Lemma sub_newlines_cap a s :
  let r := Rep (is_char a) 3 None in
  let t := [Lit (String a (str1 a))] in
  sub_go r t 0 s = cap_runs a 0 s
  /\ (run_len (is_char a) s < 2 -> sub_go r t 0 s = cap_runs a 1 s)
  /\ (run_len (is_char a) s < 1 -> sub_go r t 0 s = cap_runs a 2 s)
  /\ sub_go r t (run_len (is_char a) s) s = cap_runs a 2 s.
Proof.
  intros r t. subst r t.
  induction s as [|c s (IH0 & IH1 & IH2 & IHs)]; [done|].
  rewrite sub_go_rep_cons. simpl run_len. simpl cap_runs.
  destruct (is_char a c) eqn:Ec.
  - apply bool_decide_eq_true in Ec. subst c.
    split_and!.
    + destruct (Nat.leb_spec 3 (S (run_len (is_char a) s))) as [Hle|Hgt].
      * (* a run of three or more: two characters, the rest passed over *)
        unfold str1. rewrite !append_cons, append_nil. f_equal.
        destruct s as [|c s]; [simpl in Hle; lia|].
        simpl in Hle, IHs |- *. destruct (is_char a c) eqn:Ec; [|lia].
        apply bool_decide_eq_true in Ec. subst c. simpl.
        f_equal. change (String a "") with (str1 a).
        rewrite IHs. apply cap_runs_ge2. lia.
      * f_equal. apply IH1. lia.
    + intros Hr. destruct (Nat.leb_spec 3 (S (run_len (is_char a) s))); [lia|].
      f_equal. apply IH2. lia.
    + intros Hr. lia.
    + simpl. rewrite IHs. symmetry. apply cap_runs_ge2. lia.
  - rewrite sub_go_rep_cons. simpl run_len. rewrite Ec.
    change (3 <=? 0)%nat with false. cbv iota. rewrite IH0. by split_and!.
Qed.

(** ** Squeezed and capped text *)

Lemma squeeze_squeezed p a b s :
  p a = true -> squeezed p a b (squeeze p a b s) = true.
Proof.
  intros Ha. revert b. induction s as [|c s IH]; intros b; simpl; [done|].
  destruct (p c) eqn:Ec.
  - destruct b; [apply IH|]. simpl. rewrite Ha, IH.
    by rewrite bool_decide_eq_true_2.
  - simpl. rewrite Ec. apply IH.
Qed.

Lemma squeezed_id p a b s :
  squeezed p a b s = true -> squeeze p a b s = s.
Proof.
  revert b. induction s as [|c s IH]; intros b; simpl; [done|].
  destruct (p c).
  - intros [[Hb Hc%bool_decide_eq_true]%andb_prop Hs]%andb_prop.
    destruct b; [done|]. subst c. f_equal. by apply IH.
  - intros Hs. f_equal. by apply IH.
Qed.

Lemma squeeze_idempotent p a s :
  p a = true ->
  squeeze p a false (squeeze p a false s) = squeeze p a false s.
Proof. intros Ha. apply squeezed_id. by apply squeeze_squeezed. Qed.

Lemma squeezed_weaken p a b s :
  squeezed p a b s = true -> squeezed p a false s = true.
Proof.
  destruct s as [|c s]; simpl; [done|]. destruct (p c); [|done].
  intros [[Hb Hc]%andb_prop Hs]%andb_prop. by rewrite Hc, Hs.
Qed.

Lemma squeezed_no_adjacent p a b s :
  squeezed p a b s = true -> has_adjacent p s = false.
Proof.
  revert b. induction s as [|c s IH]; intros b; [done|].
  simpl. destruct s as [|d s]; [done|].
  destruct (p c) eqn:Ec.
  - intros [_ Hs]%andb_prop. rewrite (IH _ Hs).
    simpl in Hs. destruct (p d); [done|]. done.
  - intros Hs. rewrite (IH _ Hs). done.
Qed.

Lemma contains_adjacent (p : ascii -> bool) a s :
  p a = true ->
  contains (String a (str1 a)) s = true -> has_adjacent p s = true.
Proof.
  intros Ha. induction s as [|c s IH]; [done|].
  simpl contains. intros [H|H]%orb_prop.
  - simpl in H. destruct s as [|d s]; [by rewrite andb_false_r in H|].
    apply andb_prop in H as [Hc H]. apply andb_prop in H as [Hd _].
    apply bool_decide_eq_true in Hc, Hd. subst c d. simpl. by rewrite Ha.
  - simpl. destruct s as [|d s]; [done|]. rewrite (IH H). apply orb_true_r.
Qed.

Lemma cap_runs_capped a n s : capped a (Nat.min n 2) (cap_runs a n s) = true.
Proof.
  revert n. induction s as [|c s IH]; intros n; simpl; [done|].
  destruct (is_char a c) eqn:Ec.
  - destruct (Nat.ltb_spec n 2) as [Hlt|Hge].
    + simpl. rewrite Ec. replace (Nat.min n 2) with n by lia.
      rewrite (proj2 (Nat.ltb_lt n 2) Hlt). simpl.
      specialize (IH (S n)). by replace (Nat.min (S n) 2) with (S n) in IH by lia.
    + specialize (IH (S n)).
      replace (Nat.min (S n) 2) with 2 in IH by lia.
      by replace (Nat.min n 2) with 2 by lia.
  - simpl. rewrite Ec. apply (IH 0).
Qed.

Lemma capped_id a n s : capped a n s = true -> cap_runs a n s = s.
Proof.
  revert n. induction s as [|c s IH]; intros n; simpl; [done|].
  destruct (is_char a c).
  - intros [Hn Hs]%andb_prop. rewrite Hn. f_equal. by apply IH.
  - intros Hs. f_equal. by apply IH.
Qed.

Lemma cap_runs_idempotent a s :
  cap_runs a 0 (cap_runs a 0 s) = cap_runs a 0 s.
Proof. apply capped_id. apply (cap_runs_capped a 0). Qed.

(** ** [strip] *)

Lemma lstrip_starts s : starts_with_space (lstrip s) = false.
Proof.
  induction s as [|c s IH]; simpl; [done|].
  destruct (is_space c) eqn:Ec; [done|]. simpl. exact Ec.
Qed.

Lemma lstrip_id s : starts_with_space s = false -> lstrip s = s.
Proof. destruct s as [|c s]; simpl; [done|]. by intros ->. Qed.

Lemma rstrip_starts s :
  starts_with_space s = false -> starts_with_space (rstrip s) = false.
Proof.
  destruct s as [|c s]; simpl; [done|]. intros Hc.
  destruct (rstrip s); [by rewrite Hc|done].
Qed.

Lemma rstrip_idempotent s : rstrip (rstrip s) = rstrip s.
Proof.
  induction s as [|c s IH]; simpl; [done|].
  destruct (rstrip s) as [|d t] eqn:E.
  - destruct (is_space c) eqn:Ec; [done|]. simpl. by rewrite Ec.
  - change (rstrip (String c (String d t)))
      with (match rstrip (String d t) with
            | EmptyString => if is_space c then EmptyString else str1 c
            | String _ _ as u => String c u
            end).
    by rewrite IH.
Qed.

Lemma strip_idempotent s : strip (strip s) = strip s.
Proof.
  unfold strip. rewrite (lstrip_id (rstrip _)).
  - apply rstrip_idempotent.
  - apply rstrip_starts, lstrip_starts.
Qed.

Lemma strip_trimmed s :
  lstrip (strip s) = strip s /\ rstrip (strip s) = strip s.
Proof.
  unfold strip. split.
  - apply lstrip_id, rstrip_starts, lstrip_starts.
  - apply rstrip_idempotent.
Qed.

Lemma lstrip_squeezed p a s :
  squeezed p a false s = true -> squeezed p a false (lstrip s) = true.
Proof.
  induction s as [|c s IH]; [done|]. intros Hs. simpl lstrip.
  destruct (is_space c); [|done]. apply IH.
  simpl in Hs. destruct (p c); [|done].
  apply andb_prop in Hs as [_ Hs]. by eapply squeezed_weaken.
Qed.

Lemma rstrip_squeezed p a b s :
  squeezed p a b s = true -> squeezed p a b (rstrip s) = true.
Proof.
  revert b. induction s as [|c s IH]; intros b; [done|]. simpl.
  destruct (p c) eqn:Ec.
  - intros [Hc Hs]%andb_prop. specialize (IH _ Hs).
    destruct (rstrip s) as [|d t].
    + destruct (is_space c); [done|]. simpl. by rewrite Ec, Hc.
    + simpl. simpl in IH. by rewrite Ec, Hc, IH.
  - intros Hs. specialize (IH _ Hs).
    destruct (rstrip s) as [|d t].
    + destruct (is_space c); [done|]. simpl. by rewrite Ec.
    + simpl. simpl in IH. by rewrite Ec, IH.
Qed.

Lemma strip_squeezed p a s :
  squeezed p a false s = true -> squeezed p a false (strip s) = true.
Proof. intros H. by apply rstrip_squeezed, lstrip_squeezed. Qed.

Lemma lstrip_free a s : free_of a s = true -> free_of a (lstrip s) = true.
Proof.
  induction s as [|c s IH]; [done|]. simpl.
  intros [Hc Hs]%andb_prop. destruct (is_space c); [by apply IH|].
  simpl. by rewrite Hc, Hs.
Qed.

Lemma rstrip_free a s : free_of a s = true -> free_of a (rstrip s) = true.
Proof.
  induction s as [|c s IH]; [done|]. simpl.
  intros [Hc Hs]%andb_prop. specialize (IH Hs).
  destruct (rstrip s) as [|d t].
  - destruct (is_space c); [done|]. simpl. by rewrite Hc.
  - simpl. simpl in IH. by rewrite Hc, IH.
Qed.

Lemma squeeze_free a p b c s :
  is_char a c = false ->
  free_of a s = true -> free_of a (squeeze p c b s) = true.
Proof.
  intros Hc. revert b. induction s as [|d s IH]; intros b; [done|]. simpl.
  intros [Hd Hs]%andb_prop. destruct (p d).
  - destruct b; [by apply IH|]. simpl. by rewrite Hc, IH.
  - simpl. by rewrite Hd, IH.
Qed.

(** ** Text in which a pattern cannot match *)

Lemma sub_no_match r t s : no_match r s -> sub r t s = s.
Proof.
  unfold sub. induction s as [|c s IH]; simpl; intros [Hm Hs].
  - by rewrite Hm.
  - rewrite Hm. f_equal. by apply IH.
Qed.

Lemma rep_free a p lo hi s (k : string -> outcome) :
  (forall s', free_of a s' = true -> k s' = None) ->
  free_of a s = true -> rep p lo hi s k = None.
Proof.
  intros Hk. revert lo hi. induction s as [|c s IH]; intros lo hi Hs; simpl.
  - destruct lo; [by apply Hk|done].
  - assert (Hstop : match lo with 0 => k (String c s) | S _ => None end = None)
      by (destruct lo; [by apply Hk|done]).
    simpl in Hs. apply andb_prop in Hs as [_ Hs'].
    destruct (p c && more hi); [|done]. by rewrite IH.
Qed.

(** A pattern followed by something that needs an [a] finds no match in
    text without [a]. *)
Lemma rmatch_free a r :
  forall s g (k : string -> caps -> outcome),
    (forall s' g', free_of a s' = true -> k s' g' = None) ->
    free_of a s = true -> rmatch r s g k = None.
Proof.
  induction r as [p|p lo hi|r1 IH1 r2 IH2|r1 IH1 r2 IH2|i r IH];
    intros s g k Hk Hs; simpl.
  - destruct s as [|c s]; [done|]. simpl in Hs.
    apply andb_prop in Hs as [_ Hs]. destruct (p c); [by apply Hk|done].
  - apply (rep_free a); [|done]. intros s' Hs'. by apply Hk.
  - apply IH1; [|done]. intros s' g' Hs'. by apply IH2.
  - rewrite IH1 by done. by apply IH2.
  - apply IH; [|done]. intros s' g' Hs'. by apply Hk.
Qed.

Lemma match_at_none r s :
  rmatch r s [] (fun s' g => Some (s', g)) = None -> match_at r s = None.
Proof. unfold match_at. by intros ->. Qed.

Lemma chr_free a s g k :
  free_of a s = true -> rmatch (Chr (is_char a)) s g k = None.
Proof.
  destruct s as [|c s]; simpl; [done|]. intros [Hc _]%andb_prop.
  apply negb_true_iff in Hc. by rewrite Hc.
Qed.

Lemma no_match_free a r s :
  (forall s', free_of a s' = true -> match_at r s' = None) ->
  free_of a s = true -> no_match r s.
Proof.
  intros Hr. induction s as [|c s IH]; intros Hs; simpl.
  - split; [by apply Hr|done].
  - split; [by apply Hr|]. apply IH. simpl in Hs.
    by apply andb_prop in Hs as [_ Hs].
Qed.

Lemma cat_chr_free a r s g k :
  free_of a s = true -> rmatch (Cat (Chr (is_char a)) r) s g k = None.
Proof.
  destruct s as [|c s]; simpl; [done|]. intros [Hc _]%andb_prop.
  apply negb_true_iff in Hc. by rewrite Hc.
Qed.

Lemma run_len_free a s : free_of a s = true -> run_len (is_char a) s = 0.
Proof.
  destruct s as [|c s]; simpl; [done|]. intros [Hc _]%andb_prop.
  apply negb_true_iff in Hc. by rewrite Hc.
Qed.

(** The five patterns with a newline in them match nowhere in text
    without a newline. *)
Lemma newline_patterns_free s :
  free_of LF s = true ->
  no_match re_newlines s /\ no_match re_heading_before s
  /\ no_match re_heading_after s /\ no_match re_list_item s
  /\ no_match re_quote s.
Proof.
  intros Hs. split_and!; apply (no_match_free LF); try done; intros s' Hs'.
  - unfold re_newlines. rewrite match_at_rep.
    unfold newline. by rewrite run_len_free.
  - apply match_at_none. by apply (cat_chr_free LF).
  - apply match_at_none. unfold re_heading_after.
    change (rmatch (Cat ?r1 ?r2) ?s ?g ?k)
      with (rmatch r1 s g (fun s1 g1 => rmatch r2 s1 g1 k)).
    apply (rmatch_free LF); [|done]. intros s1 g1 H1.
    by apply (cat_chr_free LF).
  - apply match_at_none. by apply (cat_chr_free LF).
  - apply match_at_none. by apply (cat_chr_free LF).
Qed.

(** * The text functions *)

Lemma squeezed_free p a t b s :
  p t = true -> t <> a -> squeezed p a b s = true -> free_of t s = true.
Proof.
  intros Hp Hne. revert b. induction s as [|c s IH]; intros b; simpl; [done|].
  destruct (p c) eqn:Ec.
  - intros [[_ Hc%bool_decide_eq_true]%andb_prop Hs]%andb_prop. subst c.
    rewrite (IH _ Hs), andb_true_r. apply negb_true_iff.
    apply bool_decide_eq_false. congruence.
  - intros Hs. rewrite (IH _ Hs), andb_true_r. apply negb_true_iff.
    apply bool_decide_eq_false. intros ->. congruence.
Qed.

Lemma sub_blanks_squeeze s :
  sub re_blanks to_blank s = squeeze blank SP false s.
Proof. apply (sub_plus_squeeze blank SP s). Qed.

Lemma sub_spaces_squeeze s :
  sub (plus is_space) [Lit " "] s = squeeze is_space SP false s.
Proof. apply (sub_plus_squeeze is_space SP s). Qed.

Lemma blank_is_space c : blank c = true -> is_space c = true.
Proof.
  unfold blank, one_of. simpl. rewrite orb_false_r.
  intros [H|H]%orb_prop; apply bool_decide_eq_true in H; by subst c.
Qed.

(** X1.  Whatever the input, the text [_fix_markdown_formatting] returns
    has no tab, no two adjacent blanks (so no two adjacent spaces) and
    neither begins nor ends with white space. *)
Theorem fix_output_shape (s : string) :
  let out := _fix_markdown_formatting s in
  free_of TAB out = true
  /\ has_adjacent blank out = false
  /\ contains "  " out = false
  /\ lstrip out = out /\ rstrip out = out.
Proof.
  intros out. subst out. unfold _fix_markdown_formatting.
  rewrite sub_blanks_squeeze.
  set (y := sub re_quote _ _).
  assert (Hq : squeezed blank SP false (strip (squeeze blank SP false y)) = true)
    by (by apply strip_squeezed, squeeze_squeezed).
  split_and!.
  - by apply (squeezed_free blank SP TAB false).
  - by apply (squeezed_no_adjacent blank SP false).
  - destruct (contains "  " _) eqn:E; [|done].
    apply (contains_adjacent blank SP) in E; [|done].
    by rewrite (squeezed_no_adjacent blank SP false) in E.
  - apply strip_trimmed.
  - apply strip_trimmed.
Qed.

Lemma fix_free_of_newline s :
  free_of LF s = true ->
  _fix_markdown_formatting s = strip (squeeze blank SP false s).
Proof.
  intros Hs. destruct (newline_patterns_free s Hs) as (H1 & H2 & H3 & H4 & H5).
  unfold _fix_markdown_formatting.
  rewrite (sub_no_match _ _ _ H1), (sub_no_match _ _ _ H2),
    (sub_no_match _ _ _ H3), (sub_no_match _ _ _ H4), (sub_no_match _ _ _ H5).
  by rewrite sub_blanks_squeeze.
Qed.

(** X2.  On text without a newline the formatter only squeezes the runs of
    spaces and tabs and trims, and applying it again changes nothing. *)
Theorem fix_idempotent_single_line (s : string) :
  free_of LF s = true ->
  _fix_markdown_formatting s = strip (squeeze blank SP false s)
  /\ _fix_markdown_formatting (_fix_markdown_formatting s)
     = _fix_markdown_formatting s.
Proof.
  intros Hs. split; [by apply fix_free_of_newline|].
  rewrite (fix_free_of_newline s Hs).
  rewrite fix_free_of_newline.
  - rewrite squeezed_id by (by apply strip_squeezed, squeeze_squeezed).
    apply strip_idempotent.
  - by apply rstrip_free, lstrip_free, squeeze_free.
Qed.

Lemma fix_idempotent_single_line_witness :
  _fix_markdown_formatting (String TAB " a  b ") = "a b"
  /\ _fix_markdown_formatting (_fix_markdown_formatting (String TAB " a  b "))
     = _fix_markdown_formatting (String TAB " a  b ").
Proof.
  destruct (fix_idempotent_single_line (String TAB " a  b ") eq_refl)
    as [H1 H2].
  split; [|exact H2]. rewrite H1. vm_compute. reflexivity.
Defined.

(** X3.  The first step of the formatter, [re.sub(r'\n{3,}', '\n\n', s)],
    keeps the first two newlines of every run and drops the others; its
    result has no three newlines in a row and the step is idempotent. *)
Theorem newline_step (s : string) :
  sub re_newlines to_newlines s = cap_runs LF 0 s
  /\ capped LF 0 (sub re_newlines to_newlines s) = true
  /\ contains (NL +:+ NL +:+ NL) (sub re_newlines to_newlines s) = false
  /\ sub re_newlines to_newlines (sub re_newlines to_newlines s)
     = sub re_newlines to_newlines s.
Proof.
  assert (E : forall u, sub re_newlines to_newlines u = cap_runs LF 0 u)
    by (intros u; apply (sub_newlines_cap LF u)).
  rewrite !E. split_and!; [done| apply (cap_runs_capped LF 0) | |
                           apply cap_runs_idempotent].
  pose proof (cap_runs_capped LF 0 s) as Hc. simpl in Hc.
  revert Hc. generalize (cap_runs LF 0 s). clear. intros u.
  assert (H : forall n, capped LF n u = true ->
                        contains (NL +:+ NL +:+ NL) u = false).
  { induction u as [|c u IH]; intros n; [done|].
    simpl capped. intros Hc. simpl contains.
    assert (Hu : contains (NL +:+ NL +:+ NL) u = false).
    { destruct (is_char LF c); [apply andb_prop in Hc as [_ Hc]|]; eauto. }
    rewrite Hu, orb_false_r.
    destruct (startswith (NL +:+ NL +:+ NL) (String c u)) eqn:Es; [|done].
    exfalso. destruct u as [|d [|e u]]; simpl in Es;
      try (by rewrite ?andb_false_r in Es).
    apply andb_prop in Es as [E1 Es]. apply andb_prop in Es as [E2 Es].
    apply andb_prop in Es as [E3 _].
    apply bool_decide_eq_true in E1, E2, E3. subst c d e.
    rewrite is_char_refl in Hc. apply andb_prop in Hc as [_ Hc].
    change (capped LF (S n) (String LF (String LF u)))
      with (if is_char LF LF
            then (S n <? 2)%nat && capped LF (S (S n)) (String LF u)
            else capped LF 0 (String LF u)) in Hc.
    rewrite is_char_refl in Hc. apply andb_prop in Hc as [_ Hc].
    change (capped LF (S (S n)) (String LF u))
      with (if is_char LF LF
            then (S (S n) <? 2)%nat && capped LF (S (S (S n))) u
            else capped LF 0 u) in Hc.
    rewrite is_char_refl in Hc. apply andb_prop in Hc as [Hn _].
    apply Nat.ltb_lt in Hn. lia. }
  apply (H 0).
Qed.

Lemma replace_free a old new s :
  free_of a s = true -> replace (String a old) new s = s.
Proof.
  unfold replace. induction s as [|c s IH]; [done|].
  simpl free_of. intros [Hc Hs]%andb_prop.
  apply negb_true_iff, bool_decide_eq_false in Hc.
  cbn [replace_go startswith].
  rewrite bool_decide_eq_false_2 by congruence. simpl. f_equal. by apply IH.
Qed.

Lemma squeeze_all_of p a s :
  all_of p s = true -> squeeze p a true s = "".
Proof.
  induction s as [|c s IH]; [done|]. simpl.
  intros [Hc Hs]%andb_prop. rewrite Hc. by apply IH.
Qed.

Lemma clean_text_unfold s :
  _clean_text s =
  replace "&quot;" (str1 (chr 34))
    (replace "&gt;" ">"
       (replace "&lt;" "<"
          (replace "&amp;" "&"
             (replace "&nbsp;" " "
                (strip (squeeze is_space SP false s)))))).
Proof.
  unfold _clean_text. destruct s as [|c s]; [done|].
  cbv zeta. change (negb (nonempty (String c s))) with false. cbv iota.
  by rewrite sub_spaces_squeeze.
Qed.

Lemma clean_text_free s :
  free_of "&" s = true -> _clean_text s = strip (squeeze is_space SP false s).
Proof.
  intros Hs. rewrite clean_text_unfold.
  assert (Hf : free_of "&" (strip (squeeze is_space SP false s)) = true)
    by (by apply rstrip_free, lstrip_free, squeeze_free).
  rewrite (replace_free "&" "nbsp;" " " _ Hf).
  rewrite (replace_free "&" "amp;" "&" _ Hf).
  rewrite (replace_free "&" "lt;" "<" _ Hf).
  rewrite (replace_free "&" "gt;" ">" _ Hf).
  by rewrite (replace_free "&" "quot;" _ _ Hf).
Qed.

(** X4.  On text without ['&'] (no entity left to replace), [_clean_text]
    returns the text with every run of white space squeezed to one space
    and trimmed: no two adjacent white-space characters, every white-space
    character a space, no white space at either end; cleaning the result
    again changes nothing. *)
Theorem clean_text_normalizes (s : string) :
  free_of "&" s = true ->
  let out := _clean_text s in
  out = strip (squeeze is_space SP false s)
  /\ squeezed is_space SP false out = true
  /\ has_adjacent is_space out = false
  /\ lstrip out = out /\ rstrip out = out
  /\ _clean_text out = out.
Proof.
  intros Hs out. subst out. rewrite (clean_text_free s Hs).
  assert (Hq : squeezed is_space SP false (strip (squeeze is_space SP false s))
               = true) by (by apply strip_squeezed, squeeze_squeezed).
  split_and!; [done | done | by apply (squeezed_no_adjacent is_space SP false)
               | apply strip_trimmed | apply strip_trimmed |].
  rewrite clean_text_free
    by (by apply rstrip_free, lstrip_free, squeeze_free).
  rewrite squeezed_id by done. apply strip_idempotent.
Qed.

Lemma clean_text_normalizes_witness :
  _clean_text (String TAB " Topic  Models " +:+ NL) = "Topic Models"
  /\ _clean_text "Topic Models" = "Topic Models".
Proof.
  destruct (clean_text_normalizes (String TAB " Topic  Models " +:+ NL) eq_refl)
    as (H1 & _ & _ & _ & _ & H6).
  assert (E : _clean_text (String TAB " Topic  Models " +:+ NL) = "Topic Models")
    by (rewrite H1; vm_compute; reflexivity).
  split; [exact E|]. by rewrite E in H6.
Defined.

(** X5.  [_clean_text] returns the empty string for the empty string and
    for any text made of white space only. *)
Theorem clean_text_blank (s : string) :
  all_of is_space s = true -> _clean_text s = "".
Proof.
  intros Hs. rewrite clean_text_unfold.
  assert (E : strip (squeeze is_space SP false s) = "").
  { destruct s as [|c s]; [done|]. simpl in Hs |- *.
    apply andb_prop in Hs as [Hc Hs]. rewrite Hc.
    by rewrite (squeeze_all_of _ _ _ Hs). }
  by rewrite E.
Qed.

Lemma clean_text_blank_witness :
  _clean_text (String TAB (" " +:+ NL)) = "".
Proof. apply clean_text_blank. vm_compute. reflexivity. Defined.

(** ** More on the metadata *)

Lemma key_of_range name k :
  key_of name = Some k ->
  k ∈ ["description"; "author"; "keywords"; "og_title"; "url"; "published"].
Proof.
  unfold key_of, recognized. simpl.
  repeat (case_bool_decide;
          [intros; simplify_eq/=; repeat (first [by left | right])|]).
  done.
Qed.

Lemma contribution_inv m k c :
  contribution m = Some (k, c) ->
  c <> "" /\ get "content" m = Some c
  /\ k ∈ ["description"; "author"; "keywords"; "og_title"; "url"; "published"].
Proof.
  unfold contribution.
  destruct (py_or _ _) as [name|]; [|done].
  destruct (get "content" m) as [content|]; [|done].
  destruct (nonempty name); [|done]. simpl.
  destruct (nonempty content) eqn:En; [|done].
  destruct (key_of name) as [k'|] eqn:Ek; [|done]. simpl.
  intros ?; simplify_eq. split_and!; [by intros -> | done |].
  by eapply key_of_range.
Qed.

Lemma foldl_meta_step_invariant (P : gmap string string -> Prop) metas :
  (forall md m k c, contribution m = Some (k, c) -> P md -> P (<[k := c]> md)) ->
  forall md, P md -> P (foldl meta_step md metas).
Proof.
  intros HP. induction metas as [|m metas IH]; intros md Hmd; simpl; [done|].
  apply IH. rewrite meta_step_contribution.
  destruct (contribution m) as [[k c]|] eqn:E; [|done]. by eapply HP.
Qed.


(** X7.  The metadata has no key besides [title], [description], [author],
    [keywords], [og_title], [url] and [published], and every value that
    comes from a [meta] tag is a non-empty string. *)
Theorem metadata_keys (soup : node) (k v : string) :
  _extract_metadata soup !! k = Some v ->
  k ∈ ["title"; "description"; "author"; "keywords"; "og_title"; "url";
       "published"]
  /\ (k <> "title" -> v <> "").
Proof.
  revert k v. unfold _extract_metadata.
  apply (foldl_meta_step_invariant (fun md => forall k v,
    md !! k = Some v ->
    k ∈ ["title"; "description"; "author"; "keywords"; "og_title"; "url";
         "published"]
    /\ (k <> "title" -> v <> ""))).
  - intros md m k c Hm Hmd k' v'.
    apply contribution_inv in Hm as (Hc & _ & Hk).
    destruct (decide (k = k')) as [->|Hne].
    + rewrite lookup_insert_eq. intros ?; simplify_eq. split; [by right|done].
    + rewrite lookup_insert_ne by done. apply Hmd.
  - intros k v. destruct (find "title" soup).
    + destruct (decide (k = "title")) as [->|Hne].
      * intros _. split; [by left|done].
      * by rewrite lookup_insert_ne.
    + by rewrite lookup_empty.
Qed.

Lemma metadata_keys_witness :
  "description" ∈ ["title"; "description"; "author"; "keywords"; "og_title";
                   "url"; "published"]
  /\ ("description" <> "title" -> "B" <> "").
Proof.
  apply (metadata_keys Sample.doc_meta "description" "B").
  vm_compute. reflexivity.
Defined.

(** * The removal of unwanted elements *)

Lemma filter_nil_Forall {A} (f : A -> bool) (l : list A) :
  List.filter f l = [] <-> Forall (fun x => f x = false) l.
Proof.
  induction l as [|x l IH]; simpl.
  - split; [constructor|done].
  - destruct (f x) eqn:E.
    + split; [done|]. intros H. inversion H; congruence.
    + rewrite IH. split; [by constructor|]. by inversion 1.
Qed.

Lemma matches_decompose sel sel' n :
  matches sel (decompose_all sel' n) = matches sel n.
Proof. by destruct n. Qed.

Lemma descendants_cons nm a c cs :
  descendants (Elem nm a (c :: cs))
  = (c :: descendants c) ++ descendants (Elem nm a cs).
Proof. reflexivity. Qed.

Lemma decompose_cons sel nm a c cs :
  decompose_all sel (Elem nm a (c :: cs))
  = if matches sel c then decompose_all sel (Elem nm a cs)
    else match decompose_all sel (Elem nm a cs) with
         | Elem nm' a' cs' => Elem nm' a' (decompose_all sel c :: cs')
         | other => other
         end.
Proof. simpl. by destruct (matches sel c). Qed.

Lemma decompose_elem sel nm a cs :
  exists cs', decompose_all sel (Elem nm a cs) = Elem nm a cs'.
Proof. by eexists. Qed.

(** What is left below a node comes from a descendant the selector did
    not match. *)
Lemma descendants_decompose sel n :
  Forall (fun d => exists d0, d0 ∈ descendants n
                              /\ matches sel d0 = false
                              /\ d = decompose_all sel d0)
         (descendants (decompose_all sel n)).
Proof.
  induction n as [s|s|nm a cs IH] using node_ind'; [constructor..|].
  induction IH as [|c cs Hc _ IHcs]; [constructor|].
  assert (Hl : forall d0, d0 ∈ c :: descendants c ->
                          d0 ∈ descendants (Elem nm a (c :: cs)))
    by (intros d0 H0; rewrite descendants_cons; apply elem_of_app; by left).
  assert (Hr : forall d0, d0 ∈ descendants (Elem nm a cs) ->
                          d0 ∈ descendants (Elem nm a (c :: cs)))
    by (intros d0 H0; rewrite descendants_cons; apply elem_of_app; by right).
  rewrite decompose_cons.
  destruct (decompose_elem sel nm a cs) as [cs' E]. rewrite E in IHcs |- *.
  destruct (matches sel c) eqn:Ec.
  - eapply Forall_impl; [exact IHcs|]. intros d (d0 & Hd0 & Hm & ->).
    exists d0. split_and!; [by apply Hr|done..].
  - rewrite (descendants_cons nm a (decompose_all sel c)).
    apply Forall_app. split.
    + constructor.
      * exists c. split_and!; [apply Hl; by left|done..].
      * eapply Forall_impl; [exact Hc|]. intros d (d0 & Hd0 & Hm & ->).
        exists d0. split_and!; [apply Hl; by right|done..].
    + eapply Forall_impl; [exact IHcs|]. intros d (d0 & Hd0 & Hm & ->).
      exists d0. split_and!; [by apply Hr|done..].
Qed.

Lemma select_decompose_same sel n : select sel (decompose_all sel n) = [].
Proof.
  apply filter_nil_Forall.
  eapply Forall_impl; [apply descendants_decompose|].
  intros d (d0 & _ & Hm & ->). by rewrite matches_decompose.
Qed.

Lemma select_decompose_other sel sel' n :
  select sel n = [] -> select sel (decompose_all sel' n) = [].
Proof.
  intros Hn. apply filter_nil_Forall in Hn. apply filter_nil_Forall.
  eapply Forall_impl; [apply descendants_decompose|].
  intros d (d0 & Hd0 & _ & ->). rewrite matches_decompose.
  rewrite Forall_forall in Hn. by apply Hn.
Qed.

Lemma select_foldl_keep sel sels n :
  select sel n = [] ->
  select sel (foldl (fun t s => decompose_all s t) n sels) = [].
Proof.
  revert n. induction sels as [|s sels IH]; intros n Hn; simpl; [done|].
  by apply IH, select_decompose_other.
Qed.

Lemma select_foldl_removed sel sels n :
  sel ∈ sels ->
  select sel (foldl (fun t s => decompose_all s t) n sels) = [].
Proof.
  revert n. induction sels as [|s sels IH]; intros n Hin; simpl.
  - by apply elem_of_nil in Hin.
  - apply elem_of_cons in Hin as [->|Hin]; [|by apply IH].
    apply select_foldl_keep, select_decompose_same.
Qed.

Lemma descendants_trans n d d' :
  d ∈ descendants n -> d' ∈ descendants d -> d' ∈ descendants n.
Proof.
  induction n as [s|s|nm a cs IH] using node_ind'; [by intros ?%elem_of_nil..|].
  induction IH as [|c cs Hc _ IHcs]; [by intros ?%elem_of_nil|].
  rewrite descendants_cons. intros Hd Hd'.
  apply elem_of_app in Hd as [Hd|Hd].
  - apply elem_of_app. left. apply elem_of_cons in Hd as [->|Hd].
    + by right.
    + right. by apply Hc.
  - apply elem_of_app. right. by apply IHcs.
Qed.

Lemma select_descendant sel n d :
  select sel n = [] -> d ∈ descendants n ->
  matches sel d = false /\ select sel d = [].
Proof.
  intros Hn Hd. apply filter_nil_Forall in Hn. rewrite Forall_forall in Hn.
  split; [by apply Hn|]. apply filter_nil_Forall, Forall_forall.
  intros d' Hd'. apply Hn. by eapply descendants_trans.
Qed.

Lemma head_filter_elem {A} (f : A -> bool) (l : list A) x :
  head (List.filter f l) = Some x -> x ∈ l.
Proof.
  induction l as [|y l IH]; simpl; [done|].
  destruct (f y); simpl; [intros ?; simplify_eq; by left|].
  intros H. right. by apply IH.
Qed.

Lemma first_selected_elem sels soup e :
  first_selected sels soup = Some e -> e ∈ descendants soup.
Proof.
  induction sels as [|s sels IH]; simpl; [done|].
  destruct (select_one s soup) as [e'|] eqn:E; [|done].
  intros ?; simplify_eq. by eapply head_filter_elem.
Qed.

(** The region [_extract_main_content] returns is the cleaned tree or one
    of its elements. *)
Lemma main_content_where soup :
  _extract_main_content soup = remove_unwanted soup
  \/ _extract_main_content soup ∈ descendants (remove_unwanted soup).
Proof.
  unfold _extract_main_content.
  destruct (first_selected _ _) as [e|] eqn:E.
  - right. by eapply first_selected_elem.
  - destruct (find "body" _) as [b|] eqn:Eb; [|by left].
    right. by eapply head_filter_elem.
Qed.

(** X8.  Once the unwanted elements are removed, no element of the tree is
    matched by any selector of the removal list: a later removal never
    brings back what an earlier one took out.  The content region that
    [_extract_main_content] returns therefore has no [script], [style],
    [nav], [header] or [footer] below it, nor any element of the other
    unwanted kinds, and is itself unwanted only if it is the whole tree. *)
Theorem content_free_of_unwanted (soup : node) (sel : selector) :
  sel ∈ unwanted_selectors ->
  select sel (remove_unwanted soup) = []
  /\ select sel (_extract_main_content soup) = []
  /\ (matches sel (_extract_main_content soup) = true ->
      _extract_main_content soup = remove_unwanted soup).
Proof.
  intros Hsel.
  assert (Hc : select sel (remove_unwanted soup) = [])
    by (by apply select_foldl_removed).
  split; [done|].
  destruct (main_content_where soup) as [E|Hd].
  - rewrite E. by split.
  - destruct (select_descendant _ _ _ Hc Hd) as [Hm Hs].
    split; [done|]. by rewrite Hm.
Qed.

Lemma content_free_of_unwanted_witness :
  select (SelTag "nav") (remove_unwanted Sample.doc_article) = []
  /\ select (SelTag "nav") (_extract_main_content Sample.doc_article) = []
  /\ (matches (SelTag "nav") (_extract_main_content Sample.doc_article) = true ->
      _extract_main_content Sample.doc_article
      = remove_unwanted Sample.doc_article).
Proof.
  apply content_free_of_unwanted. unfold unwanted_selectors.
  do 2 right. by left.
Defined.

(** * More on the image stage *)

Lemma rewrite_img_erase self st a a' st' :
  rewrite_img self st a = Ok (a', st') ->
  delete "alt" (delete "src" a') = delete "alt" (delete "src" a).
Proof.
  unfold rewrite_img. destruct (nonempty _); [|by intros; simplify_eq].
  destruct (_process_image self st _) as [[new_src st1]|]; [|done].
  simpl. intros Hr. simplify_eq. apply map_eq. intros k.
  destruct (decide (k = "alt")) as [->|Ha]; [by rewrite !lookup_delete_eq|].
  rewrite !(lookup_delete_ne _ "alt") by done.
  destruct (decide (k = "src")) as [->|Hs]; [by rewrite !lookup_delete_eq|].
  rewrite !(lookup_delete_ne _ "src") by done.
  destruct (negb _); destruct (nonempty new_src);
    by rewrite ?lookup_insert_ne by done.
Qed.

Lemma for_each_erase self (cs : list node) :
  Forall (fun c => forall st c' st',
            rewrite_images self st c = Ok (c', st') ->
            erase_img c' = erase_img c) cs ->
  forall st cs' st',
    for_each (rewrite_images self) st cs = Ok (cs', st') ->
    map erase_img cs' = map erase_img cs.
Proof.
  induction 1 as [|c cs Hc _ IH]; intros st cs' st' H; simpl in H.
  - by simplify_eq.
  - destruct (rewrite_images self st c) as [[c1 st1]|] eqn:E1; [|done].
    simpl in H.
    destruct (for_each (rewrite_images self) st1 cs) as [[cs1 st2]|] eqn:E2;
      [|done].
    simpl in H. simplify_eq. simpl. f_equal; eauto.
Qed.

(** X10.  The image stage changes nothing in the tree but the [src] and
    [alt] attributes of [img] tags: every other attribute, every other
    tag, the text and the shape of the tree stay as they were. *)
Theorem image_stage_touches_src_alt_only (self : converter) (st st' : state)
    (soup soup' : node) :
  rewrite_images self st soup = Ok (soup', st') ->
  erase_img soup' = erase_img soup.
Proof.
  revert st soup' st'.
  induction soup as [s|s|nm a cs IH] using node_ind'; intros st soup' st' H;
    simpl in H; [by simplify_eq..|].
  destruct (if bool_decide (nm = "img") then rewrite_img self st a
            else Ok (a, st)) as [[a1 st1]|] eqn:Ea; [|done].
  simpl in H.
  destruct (for_each (rewrite_images self) st1 cs) as [[cs1 st2]|] eqn:Ec;
    [|done].
  simpl in H. simplify_eq. simpl.
  rewrite (for_each_erase self cs IH _ _ _ Ec). f_equal.
  destruct (bool_decide (nm = "img")); [|by simplify_eq].
  by eapply rewrite_img_erase.
Qed.

Lemma image_stage_touches_src_alt_only_witness :
  erase_img
    (Sample.body
       [ Elem "p" ∅
           [ Sample.img (<["alt" := "A"]> {["src" := "images/foo.png"]});
             Sample.img (<["alt" := "Image"]> {["src" := "images/foo.png"]}) ];
         Sample.img (<["alt" := "Image"]>
                       {["src" := "https://example.org/x.png"]}) ])
  = erase_img Sample.doc_mixed.
Proof.
  eapply (image_stage_touches_src_alt_only Sample.page (init_state Sample.disk)).
  vm_compute. reflexivity.
Defined.

Lemma rewrite_img_no_assets self st a :
  assets_folder self = None ->
  exists a', rewrite_img self st a = Ok (a', st) /\ a' !! "src" = a !! "src".
Proof.
  intros Hn. unfold rewrite_img.
  destruct (a !! "src") as [src|] eqn:Ea; simpl; [|by eexists].
  destruct (nonempty src) eqn:En; [|by eexists].
  assert (Hp : exists new_src, _process_image self st src = Ok (new_src, st)
                               /\ (new_src = src \/ new_src = "")).
  { unfold _process_image. rewrite En, Hn. cbn [negb].
    destruct (_ || _); [by eauto|].
    destruct (startswith "data:" src); by eauto. }
  destruct Hp as (new_src & -> & Hs). simpl.
  eexists. split; [done|].
  assert (Hsrc : (if nonempty new_src then <["src" := new_src]> a else a)
                   !! "src" = Some src).
  { destruct Hs as [->| ->]; [rewrite En; by simplify_map_eq | done]. }
  destruct (negb _); by rewrite ?lookup_insert_ne.
Qed.

Lemma for_each_total self st0 (cs : list node) :
  Forall (fun c => exists c', rewrite_images self st0 c = Ok (c', st0)) cs ->
  exists cs', for_each (rewrite_images self) st0 cs = Ok (cs', st0).
Proof.
  induction 1 as [|c cs [c' Hc] _ [cs' IH]]; simpl; [by eexists|].
  rewrite Hc. simpl. rewrite IH. simpl. by eexists.
Qed.

(** X11.  Without an assets folder the image stage cannot fail: it returns
    a tree, copies nothing, leaves the file system as it was, and every
    [img] keeps its [src]. *)
Theorem image_stage_without_assets (self : converter) (st : state) (soup : node) :
  assets_folder self = None ->
  exists soup',
    rewrite_images self st soup = Ok (soup', st)
    /\ Forall2 (fun e e' => get "src" e' = get "src" e)
               (find_all "img" soup) (find_all "img" soup').
Proof.
  intros Hn.
  assert (Ht : exists soup', rewrite_images self st soup = Ok (soup', st)).
  { induction soup as [s|s|nm a cs IH] using node_ind'; [by eexists..|].
    simpl.
    assert (Ha : exists a', (if bool_decide (nm = "img")
                             then rewrite_img self st a else Ok (a, st))
                            = Ok (a', st)).
    { destruct (bool_decide (nm = "img")); [|by eexists].
      destruct (rewrite_img_no_assets self st a Hn) as (a' & Ha & _).
      by eexists. }
    destruct Ha as [a' ->]. simpl.
    destruct (for_each_total self st cs IH) as [cs' ->]. simpl. by eexists. }
  destruct Ht as [soup' Ht]. exists soup'. split; [done|].
  revert Ht. apply (rewrite_images_Forall2 self (fun a a' =>
    a' !! "src" = a !! "src")).
  intros st0 a a' st1 Hr.
  destruct (rewrite_img_no_assets self st0 a Hn) as (a2 & Ha2 & Hs).
  rewrite Ha2 in Hr. by simplify_eq.
Qed.

Lemma image_stage_without_assets_witness :
  exists soup',
    rewrite_images {| base_dir := path_of "/in"; assets_folder := None;
                      images_dir := path_of "/out/images" |}
                   (init_state Sample.disk) Sample.doc_mixed
    = Ok (soup', init_state Sample.disk)
    /\ Forall2 (fun e e' => get "src" e' = get "src" e)
               (find_all "img" Sample.doc_mixed) (find_all "img" soup').
Proof. by apply image_stage_without_assets. Defined.




(** * Code blocks *)

Import Code.

Lemma elem_of_descendants nm a cs d :
  d ∈ descendants (Elem nm a cs) <->
  exists c, c ∈ cs /\ (d = c \/ d ∈ descendants c).
Proof.
  induction cs as [|c cs IH].
  - split; [by intros ?%elem_of_nil|]. by intros (c & ?%elem_of_nil & _).
  - rewrite descendants_cons, elem_of_app, elem_of_cons, IH. split.
    + intros [[->|Hd]|(c' & Hc' & Hd)].
      * exists c. split; [by left|by left].
      * exists c. split; [by left|by right].
      * exists c'. split; [by right|done].
    + intros (c' & [->|Hc']%elem_of_cons & Hd).
      * left. destruct Hd; [by left|by right].
      * right. by exists c'.
Qed.

Lemma find_all_nil_child name nm a cs c :
  find_all name (Elem nm a cs) = [] -> c ∈ cs -> find_all name c = [].
Proof.
  unfold find_all. rewrite !filter_nil_Forall, !Forall_forall.
  intros H Hc d Hd. apply H. apply elem_of_descendants.
  exists c. split; [done|by right].
Qed.

Lemma head_filter_None {A} (f : A -> bool) (l : list A) :
  head (List.filter f l) = None -> List.filter f l = [].
Proof. by destruct (List.filter f l). Qed.

Lemma map_id_Forall {A} (f : A -> A) (l : list A) :
  Forall (fun x => f x = x) l -> map f l = l.
Proof. induction 1; simpl; congruence. Qed.

(** Where there is no [code], nothing changes. *)
Lemma process_pre_no_code n : find_all "code" n = [] -> process_pre n = n.
Proof.
  induction n as [s|s|nm a cs IH] using node_ind'; [done..|].
  intros Hn.
  assert (Hcs : map process_pre cs = cs).
  { apply map_id_Forall. rewrite Forall_forall in IH |- *.
    intros c Hc. apply IH; [done|]. by eapply find_all_nil_child. }
  simpl. rewrite Hcs.
  destruct (bool_decide (nm = "pre")); [|done].
  change (find "code" (Elem nm a cs)) with (head (find_all "code" (Elem nm a cs))).
  by rewrite Hn.
Qed.

Lemma process_pre_elem nm a cs :
  process_pre (Elem nm a cs) =
  if bool_decide (nm = "pre") then
    match head (find_all "code" (Elem nm a cs)) with
    | Some code => Elem nm a [Text (fence code)]
    | None => Elem nm a (map process_pre cs)
    end
  else Elem nm a (map process_pre cs).
Proof. reflexivity. Qed.

Lemma process_pre_idempotent n : process_pre (process_pre n) = process_pre n.
Proof.
  induction n as [s|s|nm a cs IH] using node_ind'; [done..|].
  assert (Hcs : map process_pre (map process_pre cs) = map process_pre cs).
  { rewrite map_map. apply map_ext_Forall. exact IH. }
  destruct (find_all "code" (Elem nm a cs)) as [|code l] eqn:Ec.
  - by rewrite !(process_pre_no_code _ Ec).
  - rewrite (process_pre_elem nm a cs), Ec. cbn [head].
    destruct (bool_decide (nm = "pre")) eqn:Enm.
    + by rewrite process_pre_elem, Enm.
    + by rewrite process_pre_elem, Enm, Hcs.
Qed.

(** X13.  Running the code-block stage a second time changes nothing. *)
Theorem code_blocks_idempotent (soup : node) :
  _process_code_blocks (_process_code_blocks soup) = _process_code_blocks soup.
Proof.
  destruct soup as [s|s|nm a cs]; [done..|]. simpl. f_equal.
  rewrite map_map. apply map_ext. intros c. apply process_pre_idempotent.
Qed.



